(** * ForceFieldCircle: a shallow embedding of PhySimObjects/ForceFieldCircle.py

    Numbers.  The Python code computes with IEEE doubles (Python floats and
    pygame.Vector2 components).  This development idealises them as exact
    rationals [Q]: no rounding, no overflow, no NaN.  Everything that the
    code makes observable besides arithmetic is kept: the order of the
    assignments, the guards, the early return, the exceptions raised by a
    division by zero and by normalising a null vector, and the aliasing of
    the bodies held by the entity registry.

    Square root.  [Vector2.distance_to] and [Vector2.normalize] call the C
    square root, which no function into [Q] can follow everywhere.  [Qsqrt]
    below returns the exact root whenever the argument is the square of a
    rational; elsewhere it returns the floor of the root on the grid of the
    reduced denominator, which is not what the code computes.  The model of
    a pair of bodies is therefore the code's where the distance of the two
    centres is rational: [exact_separation] names that condition.  A
    statement about the values written for a pair, or about when a pair
    overlaps, is a statement about the code where that condition holds. *)

From Stdlib Require Import ZArith Zdivisibility QArith Qabs Qreduction Lqa List Bool.
Import ListNotations.

Local Open Scope Q_scope.

(** ** Exceptions *)

Inductive exn : Set :=
| ZeroDivisionError
| ValueError.

Inductive result (A : Type) : Type :=
| Ok (a : A)
| Raise (e : exn).

Arguments Ok {A} a.
Arguments Raise {A} e.

Definition bind {A B : Type} (m : result A) (k : A -> result B) : result B :=
  match m with
  | Ok a => k a
  | Raise e => Raise e
  end.

Notation "x <- m ;; k" := (bind m (fun x => k))
  (at level 61, m at next level, right associativity).

Definition raises {A : Type} (m : result A) : Prop :=
  exists e, m = Raise e.

(** ** Scalars *)

(** Python's [a < b] on numbers. *)
Definition Qltb (a b : Q) : bool := negb (Qle_bool b a).

(** Python's [a / b] on floats: [ZeroDivisionError] when [b == 0]. *)
Definition pydiv (a b : Q) : result Q :=
  if Qeq_bool b 0 then Raise ZeroDivisionError else Ok (a / b).

(** Python's builtin [min(a, b)]: the first argument unless the second is
    strictly smaller. *)
Definition pymin (a b : Q) : Q := if Qltb b a then b else a.

(** The rational square root: the exact root of the square of a rational
    (lemma [Qsqrt_square]); the floor of the root, counted in units of the
    reduced denominator, of any other argument. *)
Definition Qsqrt (q : Q) : Q :=
  let r := Qred q in
  Z.sqrt (Qnum r * Zpos (Qden r)) # Qden r.

(** ** pygame.Vector2 *)

Record Vector2 : Set := mkVector2 { x : Q; y : Q }.

Definition vzero : Vector2 := mkVector2 0 0.

Definition vadd (u v : Vector2) : Vector2 :=
  mkVector2 (x u + x v) (y u + y v).

Definition vsub (u v : Vector2) : Vector2 :=
  mkVector2 (x u - x v) (y u - y v).

(** [v * s] and [s * v]. *)
Definition vscale (v : Vector2) (s : Q) : Vector2 :=
  mkVector2 (x v * s) (y v * s).

(** [v / s]: pygame raises [ZeroDivisionError] on a zero scalar. *)
Definition vdiv (v : Vector2) (s : Q) : result Vector2 :=
  if Qeq_bool s 0 then Raise ZeroDivisionError
  else Ok (mkVector2 (x v / s) (y v / s)).

Definition dot (u v : Vector2) : Q := x u * x v + y u * y v.

Definition length_squared (v : Vector2) : Q := dot v v.

Definition vlength (v : Vector2) : Q := Qsqrt (length_squared v).

(** [u.distance_to(v)]: the length of [v - u]. *)
Definition distance_to (u v : Vector2) : Q := vlength (vsub v u).

(** [v.normalize()]: [ValueError] on a vector of length zero. *)
Definition normalize (v : Vector2) : result Vector2 :=
  let l := vlength v in
  if Qeq_bool l 0 then Raise ValueError
  else Ok (mkVector2 (x v / l) (y v / l)).

(** Componentwise equality of rationals. *)
Definition veq (u v : Vector2) : Prop := x u == x v /\ y u == y v.

(** ** The body *)

(** The physics state of a [ForceFieldCircle].  [color] and [shape] are
    presentation data; the shape's radius is [radius]. *)
Record ForceFieldCircle : Set := mkCircle {
  position : Vector2;
  velocity : Vector2;
  mass : Q;
  restitution : Q;
  radius : Q;
  net_force_accumulated : Vector2;
  pending_velocity_change : Vector2;
  pending_position_correction : Vector2
}.

Definition set_position (b : ForceFieldCircle) (p : Vector2) :=
  mkCircle p (velocity b) (mass b) (restitution b) (radius b)
    (net_force_accumulated b) (pending_velocity_change b)
    (pending_position_correction b).

Definition set_velocity (b : ForceFieldCircle) (v : Vector2) :=
  mkCircle (position b) v (mass b) (restitution b) (radius b)
    (net_force_accumulated b) (pending_velocity_change b)
    (pending_position_correction b).

Definition set_net_force_accumulated (b : ForceFieldCircle) (f : Vector2) :=
  mkCircle (position b) (velocity b) (mass b) (restitution b) (radius b)
    f (pending_velocity_change b) (pending_position_correction b).

Definition set_pending_velocity_change (b : ForceFieldCircle) (v : Vector2) :=
  mkCircle (position b) (velocity b) (mass b) (restitution b) (radius b)
    (net_force_accumulated b) v (pending_position_correction b).

Definition set_pending_position_correction (b : ForceFieldCircle) (p : Vector2) :=
  mkCircle (position b) (velocity b) (mass b) (restitution b) (radius b)
    (net_force_accumulated b) (pending_velocity_change b) p.

(** [ForceFieldCircle.__init__]: the three accumulators start at zero. *)
Definition init (px py r : Q) (v : Vector2) (m e : Q) : ForceFieldCircle :=
  mkCircle (mkVector2 px py) v m e r vzero vzero vzero.

(** ** resolve_collision, on another ForceFieldCircle

    The two bodies are distinct objects: the result is the pair of their
    states after the call. *)
Definition resolve_circle (self other_circle : ForceFieldCircle)
  : result (ForceFieldCircle * ForceFieldCircle) :=
  let distance := distance_to (position self) (position other_circle) in
  let combined_radii := radius self + radius other_circle in
  if Qltb distance combined_radii && negb (Qeq_bool distance 0) then
    let overlap := combined_radii - distance in
    direction <- normalize (vsub (position self) (position other_circle)) ;;
    let self1 := set_pending_position_correction self
      (vadd (pending_position_correction self) (vscale direction (overlap / 2))) in
    let other1 := set_pending_position_correction other_circle
      (vsub (pending_position_correction other_circle)
            (vscale direction (overlap / 2))) in
    let relative_velocity := vsub (velocity self1) (velocity other1) in
    let velocity_along_normal := dot relative_velocity direction in
    if Qltb velocity_along_normal 0 then
      let e := pymin (restitution self1) (restitution other1) in
      let j := - (1 + e) * velocity_along_normal in
      inv_self <- pydiv 1 (mass self1) ;;
      inv_other <- pydiv 1 (mass other1) ;;
      let j_divisor := inv_self + inv_other in
      if Qeq_bool j_divisor 0 then Ok (self1, other1)
      else
        j' <- pydiv j j_divisor ;;
        let impulse := vscale direction j' in
        dv_self <- vdiv impulse (mass self1) ;;
        let self2 := set_pending_velocity_change self1
          (vadd (pending_velocity_change self1) dv_self) in
        dv_other <- vdiv impulse (mass other1) ;;
        let other2 := set_pending_velocity_change other1
          (vsub (pending_velocity_change other1) dv_other) in
        Ok (self2, other2)
    else Ok (self1, other1)
  else Ok (self, other_circle).

(** ** apply_force, apply_movement *)

Definition apply_force (self : ForceFieldCircle) (force : Vector2) (delta_time : Q)
  : ForceFieldCircle :=
  set_net_force_accumulated self (vadd (net_force_accumulated self) force).

Definition apply_movement (self : ForceFieldCircle) (delta_time : Q)
  : ForceFieldCircle :=
  set_position self (vadd (position self) (vscale (velocity self) delta_time)).

(** ** update *)

(** [scenario.display_surface.get_rect()]: the four edges of a pygame Rect
    (integers in pygame, embedded in [Q]). *)
Record Rect : Set := mkRect {
  rect_left : Q;
  rect_right : Q;
  rect_top : Q;
  rect_bottom : Q
}.

Definition set_position_x (b : ForceFieldCircle) (v : Q) :=
  set_position b (mkVector2 v (y (position b))).

Definition set_position_y (b : ForceFieldCircle) (v : Q) :=
  set_position b (mkVector2 (x (position b)) v).

Definition set_velocity_x (b : ForceFieldCircle) (v : Q) :=
  set_velocity b (mkVector2 v (y (velocity b))).

Definition set_velocity_y (b : ForceFieldCircle) (v : Q) :=
  set_velocity b (mkVector2 (x (velocity b)) v).

(** [if abs(self.velocity.x) < 0.1: self.velocity.x = 0] *)
Definition damp_x (self : ForceFieldCircle) : ForceFieldCircle :=
  if Qltb (Qabs (x (velocity self))) (1 # 10) then set_velocity_x self 0 else self.

Definition damp_y (self : ForceFieldCircle) : ForceFieldCircle :=
  if Qltb (Qabs (y (velocity self))) (1 # 10) then set_velocity_y self 0 else self.

(** The four [if] statements that end [update], in source order. *)
Definition bounce_left (self : ForceFieldCircle) (screen_rect : Rect) :=
  if Qltb (x (position self) - radius self) (rect_left screen_rect) then
    let self1 := set_position_x self (rect_left screen_rect + radius self) in
    let self2 := set_velocity_x self1 (x (velocity self1) * - restitution self1) in
    damp_x self2
  else self.

Definition bounce_right (self : ForceFieldCircle) (screen_rect : Rect) :=
  if Qltb (rect_right screen_rect) (x (position self) + radius self) then
    let self1 := set_position_x self (rect_right screen_rect - radius self) in
    let self2 := set_velocity_x self1 (x (velocity self1) * - restitution self1) in
    damp_x self2
  else self.

Definition bounce_top (self : ForceFieldCircle) (screen_rect : Rect) :=
  if Qltb (y (position self) - radius self) (rect_top screen_rect) then
    let self1 := set_position_y self (rect_top screen_rect + radius self) in
    let self2 := set_velocity_y self1 (y (velocity self1) * - restitution self1) in
    damp_y self2
  else self.

Definition bounce_bottom (self : ForceFieldCircle) (screen_rect : Rect) :=
  if Qltb (rect_bottom screen_rect) (y (position self) + radius self) then
    let self1 := set_position_y self (rect_bottom screen_rect - radius self) in
    let self2 := set_velocity_y self1 (y (velocity self1) * - restitution self1) in
    damp_y self2
  else self.

Definition boundary (self : ForceFieldCircle) (screen_rect : Rect) :=
  bounce_bottom (bounce_top (bounce_right (bounce_left self screen_rect)
    screen_rect) screen_rect) screen_rect.

Definition update (self : ForceFieldCircle) (delta_time : Q) (screen_rect : Rect)
  : result ForceFieldCircle :=
  self1 <- (if Qltb 0 (mass self) then
              acceleration <- vdiv (net_force_accumulated self) (mass self) ;;
              Ok (set_velocity self
                    (vadd (velocity self) (vscale acceleration delta_time)))
            else Ok self) ;;
  let self2 := set_net_force_accumulated self1 vzero in
  let self3 := set_velocity self2
    (vadd (velocity self2) (pending_velocity_change self2)) in
  let self4 := set_position self3
    (vadd (position self3) (pending_position_correction self3)) in
  let self5 := apply_movement self4 delta_time in
  Ok (boundary self5 screen_rect).

(** ** The entity registry *)

(** What [scenario.entity_manager.get_entities()] can hold: a force field,
    seen through its [get_applied_force]; a [ForceFieldCircle]; any other
    entity, which may or may not be a [Collision]. *)
Inductive entity : Type :=
| EForceField (get_applied_force : ForceFieldCircle -> Vector2)
| ECircle (c : ForceFieldCircle)
| EOther (is_collision : bool).

Record Scenario : Type := mkScenario {
  entities : list entity;
  display_rect : Rect
}.

(** Assignment through a reference held by the registry. *)
Fixpoint store (l : list entity) (i : nat) (e : entity) : list entity :=
  match l, i with
  | [], _ => []
  | _ :: t, O => e :: t
  | h :: t, S i' => h :: store t i' e
  end.

(** [resolve_collision]: the [isinstance] gate, then the circle case. *)
Definition resolve_collision (self : ForceFieldCircle) (other : entity)
  : result (ForceFieldCircle * entity) :=
  match other with
  | ECircle other_circle =>
      r <- resolve_circle self other_circle ;;
      Ok (fst r, ECircle (snd r))
  | _ => Ok (self, other)
  end.

Record CircleShape : Set := mkShape { shape_radius : Q }.

Definition get_collision_shape (self : ForceFieldCircle) : CircleShape :=
  mkShape (radius self).

(** Modelled from the spec: [CircleShape.intersects], whose source is not
    part of this file's module; the overlap test between two circles is
    [distance(centerA, centerB) < radiusA + radiusB]. *)
Definition intersects (a b : CircleShape) (pa pb : Vector2) : bool :=
  Qltb (distance_to pa pb) (shape_radius a + shape_radius b).

(** First loop of [calculate_physics]: every force field is asked for its
    force on the body as it is at that moment. *)
Definition accumulate_fields (self : ForceFieldCircle) (delta_time : Q)
  (ents : list entity) : ForceFieldCircle :=
  fold_left
    (fun self other_entity =>
       match other_entity with
       | EForceField get_applied_force =>
           apply_force self (get_applied_force self) delta_time
       | _ => self
       end)
    ents self.

(** One iteration of the second loop: the body at index [i] meets the
    entity at index [j]. *)
Definition collide (i j : nat) (ents : list entity) : result (list entity) :=
  match nth_error ents i, nth_error ents j with
  | Some (ECircle self), Some (ECircle other_circle) =>
      if negb (Nat.eqb j i)
         && intersects (get_collision_shape self)
              (get_collision_shape other_circle)
              (position self) (position other_circle)
      then
        r <- resolve_collision self (ECircle other_circle) ;;
        Ok (store (store ents i (ECircle (fst r))) j (snd r))
      else Ok ents
  | _, _ => Ok ents
  end.

Fixpoint collide_all (i : nat) (js : list nat) (ents : list entity)
  : result (list entity) :=
  match js with
  | [] => Ok ents
  | j :: js' => ents' <- collide i j ents ;; collide_all i js' ents'
  end.

(** [calculate_physics] of the body at index [i] of the registry. *)
Definition calculate_physics (i : nat) (delta_time : Q) (ents : list entity)
  : result (list entity) :=
  match nth_error ents i with
  | Some (ECircle self) =>
      let self1 := accumulate_fields self delta_time ents in
      let self2 := set_pending_velocity_change self1 vzero in
      let self3 := set_pending_position_correction self2 vzero in
      collide_all i (seq 0 (length ents)) (store ents i (ECircle self3))
  | _ => Ok ents
  end.

(** [update] of the body at index [i] of the registry. *)
Definition update_at (i : nat) (delta_time : Q) (scenario : Scenario)
  : result (list entity) :=
  match nth_error (entities scenario) i with
  | Some (ECircle self) =>
      self' <- update self delta_time (display_rect scenario) ;;
      Ok (store (entities scenario) i (ECircle self'))
  | _ => Ok (entities scenario)
  end.

(** One body's step: [calculate_physics], then [update]. *)
Definition step (i : nat) (delta_time : Q) (scenario : Scenario)
  : result (list entity) :=
  ents <- calculate_physics i delta_time (entities scenario) ;;
  update_at i delta_time (mkScenario ents (display_rect scenario)).

(** Modelled from the spec: the driving loop, which is not part of this
    module.  Each body's whole pipeline runs to completion before the loop
    proceeds to the next body, in registry order. *)
Fixpoint run_steps (order : list nat) (delta_time : Q) (scenario : Scenario)
  : result (list entity) :=
  match order with
  | [] => Ok (entities scenario)
  | i :: order' =>
      ents <- step i delta_time scenario ;;
      run_steps order' delta_time (mkScenario ents (display_rect scenario))
  end.

Definition frame (delta_time : Q) (scenario : Scenario) : result (list entity) :=
  run_steps (seq 0 (length (entities scenario))) delta_time scenario.

(** The other reading of one full step: detection for every body first,
    then integration for every body, both in registry order. *)
Fixpoint run_calculate (order : list nat) (delta_time : Q) (ents : list entity)
  : result (list entity) :=
  match order with
  | [] => Ok ents
  | i :: order' =>
      ents' <- calculate_physics i delta_time ents ;;
      run_calculate order' delta_time ents'
  end.

Fixpoint run_update (order : list nat) (delta_time : Q) (scenario : Scenario)
  : result (list entity) :=
  match order with
  | [] => Ok (entities scenario)
  | i :: order' =>
      ents <- update_at i delta_time scenario ;;
      run_update order' delta_time (mkScenario ents (display_rect scenario))
  end.

Definition frame_phased (delta_time : Q) (scenario : Scenario)
  : result (list entity) :=
  let order := seq 0 (length (entities scenario)) in
  ents <- run_calculate order delta_time (entities scenario) ;;
  run_update order delta_time (mkScenario ents (display_rect scenario)).

(** * Derived quantities *)

(** ** The integrator, in the words of the specification *)

Module IntegratorSpec.

(** (a) if mass > 0, velocity += (net_force_accumulated / mass) * dt *)
Definition step_a (dt : Q) (b : ForceFieldCircle) : ForceFieldCircle :=
  if Qltb 0 (mass b) then
    set_velocity b
      (vadd (velocity b)
         (vscale (mkVector2 (x (net_force_accumulated b) / mass b)
                            (y (net_force_accumulated b) / mass b)) dt))
  else b.

(** (b) reset net_force_accumulated to zero *)
Definition step_b (b : ForceFieldCircle) : ForceFieldCircle :=
  set_net_force_accumulated b vzero.

(** (c) velocity += pending_velocity_change *)
Definition step_c (b : ForceFieldCircle) : ForceFieldCircle :=
  set_velocity b (vadd (velocity b) (pending_velocity_change b)).

(** (d) position += pending_position_correction *)
Definition step_d (b : ForceFieldCircle) : ForceFieldCircle :=
  set_position b (vadd (position b) (pending_position_correction b)).

(** (e) position += velocity * dt *)
Definition step_e (dt : Q) (b : ForceFieldCircle) : ForceFieldCircle :=
  set_position b (vadd (position b) (vscale (velocity b) dt)).

Definition integrate (dt : Q) (b : ForceFieldCircle) : ForceFieldCircle :=
  step_e dt (step_d (step_c (step_b (step_a dt b)))).

End IntegratorSpec.

(** ** Collision resolution *)

(** The quantities that [resolve_collision] computes for a pair, named as
    its local variables. *)
Definition combined_radii (a b : ForceFieldCircle) : Q := radius a + radius b.

Definition distance (a b : ForceFieldCircle) : Q :=
  distance_to (position a) (position b).

Definition overlap (a b : ForceFieldCircle) : Q :=
  combined_radii a b - distance a b.

(** The distance of the two centres is their true distance: its square is
    the squared length of the separation.  This holds exactly when that
    distance is rational. *)
Definition exact_separation (a b : ForceFieldCircle) : Prop :=
  distance a b * distance a b
    == length_squared (vsub (position a) (position b)).

(** The unit vector from [b]'s centre to [a]'s centre, as [normalize]
    returns it. *)
Definition direction (a b : ForceFieldCircle) : Vector2 :=
  let v := vsub (position a) (position b) in
  mkVector2 (x v / vlength v) (y v / vlength v).

Definition velocity_along_normal (a b : ForceFieldCircle) : Q :=
  dot (vsub (velocity a) (velocity b)) (direction a b).

Definition j_divisor (a b : ForceFieldCircle) : Q := 1 / mass a + 1 / mass b.

Definition impulse_scalar (a b : ForceFieldCircle) : Q :=
  - (1 + pymin (restitution a) (restitution b)) * velocity_along_normal a b
  / j_divisor a b.

(** The pair after the positional correction of lines 56 and 57. *)
Definition corrected_self (a b : ForceFieldCircle) : ForceFieldCircle :=
  set_pending_position_correction a
    (vadd (pending_position_correction a)
          (vscale (direction a b) (overlap a b / 2))).

Definition corrected_other (a b : ForceFieldCircle) : ForceFieldCircle :=
  set_pending_position_correction b
    (vsub (pending_position_correction b)
          (vscale (direction a b) (overlap a b / 2))).

(** The pair after the impulse of lines 72 and 73. *)
Definition impulsed_self (a b : ForceFieldCircle) : ForceFieldCircle :=
  let impulse := vscale (direction a b) (impulse_scalar a b) in
  set_pending_velocity_change (corrected_self a b)
    (vadd (pending_velocity_change a)
          (mkVector2 (x impulse / mass a) (y impulse / mass a))).

Definition impulsed_other (a b : ForceFieldCircle) : ForceFieldCircle :=
  let impulse := vscale (direction a b) (impulse_scalar a b) in
  set_pending_velocity_change (corrected_other a b)
    (vsub (pending_velocity_change b)
          (mkVector2 (x impulse / mass b) (y impulse / mass b))).

(** The body as [calculate_physics] leaves it before the collision loop,
    when no force field is registered. *)
Definition reset_pending (b : ForceFieldCircle) : ForceFieldCircle :=
  set_pending_position_correction (set_pending_velocity_change b vzero) vzero.

(** * Concrete bodies and rectangles *)

Definition oversized : ForceFieldCircle := init 0 5 6 vzero 1 (7 # 10).

Definition small_rect : Rect := mkRect 0 10 0 10.

Definition fast_body : ForceFieldCircle :=
  init 5 5 1 (mkVector2 1000 (-1000)) 1 (7 # 10).

Definition massless : ForceFieldCircle := init 0 0 1 (mkVector2 1 0) 0 1.

Definition incoming : ForceFieldCircle := init 1 0 1 (mkVector2 (-1) 0) 1 1.

Definition unit_mass : ForceFieldCircle := init 0 0 1 (mkVector2 1 0) 1 1.

Definition negative_mass : ForceFieldCircle :=
  init 1 0 1 (mkVector2 (-1) 0) (-1) 1.

Definition twin_a : ForceFieldCircle :=
  init 5 5 1 (mkVector2 1 0) 1 (7 # 10).

Definition twin_b : ForceFieldCircle :=
  init (10 # 2) 5 2 (mkVector2 0 (-1)) 3 (1 # 2).

Definition head_on_a : ForceFieldCircle :=
  init 0 0 3 (mkVector2 6 8) 1 1.

Definition head_on_b : ForceFieldCircle :=
  init 3 4 3 (mkVector2 (-6) (-8)) 1 1.

Definition wall_a : ForceFieldCircle := init 1 50 1 vzero 1 (7 # 10).
Definition wall_b : ForceFieldCircle := init 2 50 1 vzero 1 (7 # 10).
Definition open_a : ForceFieldCircle := init 50 50 1 vzero 1 (7 # 10).
Definition open_b : ForceFieldCircle := init 51 50 1 vzero 1 (7 # 10).
Definition arena : Rect := mkRect 0 100 0 100.

Definition jitter : ForceFieldCircle :=
  init (1 # 2) (1 # 2) 1 (mkVector2 (1 # 10) (- (1 # 10))) 1 (1 # 2).

Definition tiny_rect : Rect := mkRect 0 1 0 1.

Definition pushed : ForceFieldCircle := init 50 50 1 vzero 2 (7 # 10).

Definition constant_field : entity := EForceField (fun _ => mkVector2 0 10).

(** * Views and invariants of the registry *)

(** The five ways through [resolve_collision] on a circle, each with the
    condition that selects it. *)
Inductive resolution (a b : ForceFieldCircle)
  : result (ForceFieldCircle * ForceFieldCircle) -> Prop :=
| res_skip :
    combined_radii a b <= distance a b \/ distance a b == 0 ->
    resolution a b (Ok (a, b))
| res_separating :
    0 < distance a b -> distance a b < combined_radii a b ->
    0 <= velocity_along_normal a b ->
    resolution a b (Ok (corrected_self a b, corrected_other a b))
| res_zero_mass :
    0 < distance a b -> distance a b < combined_radii a b ->
    velocity_along_normal a b < 0 ->
    mass a == 0 \/ mass b == 0 ->
    resolution a b (Raise ZeroDivisionError)
| res_zero_divisor :
    0 < distance a b -> distance a b < combined_radii a b ->
    velocity_along_normal a b < 0 ->
    ~ mass a == 0 -> ~ mass b == 0 -> j_divisor a b == 0 ->
    resolution a b (Ok (corrected_self a b, corrected_other a b))
| res_impulse :
    0 < distance a b -> distance a b < combined_radii a b ->
    velocity_along_normal a b < 0 ->
    ~ mass a == 0 -> ~ mass b == 0 -> ~ j_divisor a b == 0 ->
    resolution a b (Ok (impulsed_self a b, impulsed_other a b)).

(** What the detection pass leaves alone in a body. *)
Definition same_kinematics (c c' : ForceFieldCircle) : Prop :=
  position c' = position c /\ velocity c' = velocity c
  /\ mass c' = mass c /\ restitution c' = restitution c
  /\ radius c' = radius c.

Definition detection_frame (e e' : entity) : Prop :=
  match e, e' with
  | ECircle c, ECircle c' => same_kinematics c c'
  | EForceField f, EForceField f' => f = f'
  | EOther k, EOther k' => k = k'
  | _, _ => False
  end.

Definition nonzero_mass (e : entity) : Prop :=
  match e with
  | ECircle c => ~ mass c == 0
  | _ => True
  end.

(** The forces the registered fields apply to a body, in registry order. *)
Definition forces_on (self : ForceFieldCircle) (ents : list entity)
  : list Vector2 :=
  flat_map
    (fun e => match e with EForceField f => [f self] | _ => [] end) ents.

(** A field whose force does not read the force accumulated so far. *)
Definition ignores_accumulator (f : ForceFieldCircle -> Vector2) : Prop :=
  forall c v, f (set_net_force_accumulated c v) = f c.

(** An overlapping, approaching pair one of whose masses is zero, at a
    separation where the distance is exact. *)
Definition fatal_pair (a b : ForceFieldCircle) : Prop :=
  exact_separation a b
  /\ 0 < distance a b /\ distance a b < radius a + radius b
  /\ velocity_along_normal a b < 0
  /\ (mass a == 0 \/ mass b == 0).

(** * More concrete inputs *)

Definition drifting : ForceFieldCircle :=
  init 50 50 1 (mkVector2 (1 # 100) 0) 1 (7 # 10).

Definition stale : ForceFieldCircle :=
  mkCircle (mkVector2 50 50) vzero 1 (7 # 10) 1 vzero
    (mkVector2 3 4) (mkVector2 (-2) 5).

Definition spring_field : entity :=
  EForceField (fun c => vscale (position c) (- (1 # 2))).

(** * Properties *)

(** ** Comparisons *)

Lemma Qltb_true (a b : Q) : Qltb a b = true <-> a < b.
Proof.
  unfold Qltb. rewrite negb_true_iff. split; intro H.
  - apply Qnot_le_lt. intro Hle. apply Qle_bool_iff in Hle. congruence.
  - destruct (Qle_bool b a) eqn:E; [|reflexivity].
    apply Qle_bool_iff in E. exfalso. apply (Qlt_not_le _ _ H E).
Qed.

Lemma Qltb_false (a b : Q) : Qltb a b = false <-> b <= a.
Proof.
  unfold Qltb. rewrite negb_false_iff. apply Qle_bool_iff.
Qed.

Lemma Qeq_bool_false (a b : Q) : Qeq_bool a b = false <-> ~ a == b.
Proof.
  split; intro H.
  - intro E. apply Qeq_bool_iff in E. congruence.
  - destruct (Qeq_bool a b) eqn:E; [|reflexivity].
    apply Qeq_bool_iff in E. contradiction.
Qed.

Ltac case_Qltb a b :=
  let E := fresh "E" in
  destruct (Qltb a b) eqn:E;
  [apply Qltb_true in E | apply Qltb_false in E].

(** ** Frame lemmas of the boundary clamp *)

Ltac bounce_cases :=
  unfold bounce_left, bounce_right, bounce_top, bounce_bottom, damp_x, damp_y;
  repeat match goal with
  | |- context [if ?c then _ else _] => destruct c
  end; cbn; auto.

Lemma bounce_left_static (b : ForceFieldCircle) (r : Rect) :
  radius (bounce_left b r) = radius b
  /\ restitution (bounce_left b r) = restitution b
  /\ net_force_accumulated (bounce_left b r) = net_force_accumulated b.
Proof. bounce_cases. Qed.

Lemma bounce_right_static (b : ForceFieldCircle) (r : Rect) :
  radius (bounce_right b r) = radius b
  /\ restitution (bounce_right b r) = restitution b
  /\ net_force_accumulated (bounce_right b r) = net_force_accumulated b.
Proof. bounce_cases. Qed.

Lemma bounce_top_static (b : ForceFieldCircle) (r : Rect) :
  radius (bounce_top b r) = radius b
  /\ restitution (bounce_top b r) = restitution b
  /\ net_force_accumulated (bounce_top b r) = net_force_accumulated b.
Proof. bounce_cases. Qed.

Lemma bounce_bottom_static (b : ForceFieldCircle) (r : Rect) :
  radius (bounce_bottom b r) = radius b
  /\ restitution (bounce_bottom b r) = restitution b
  /\ net_force_accumulated (bounce_bottom b r) = net_force_accumulated b.
Proof. bounce_cases. Qed.

Lemma boundary_net_force (b : ForceFieldCircle) (r : Rect) :
  net_force_accumulated (boundary b r) = net_force_accumulated b.
Proof.
  unfold boundary.
  rewrite (proj2 (proj2 (bounce_bottom_static _ r))).
  rewrite (proj2 (proj2 (bounce_top_static _ r))).
  rewrite (proj2 (proj2 (bounce_right_static _ r))).
  apply (proj2 (proj2 (bounce_left_static _ r))).
Qed.

(** C10.  [apply_force(f, dt)] adds [f] into [net_force_accumulated] and
    changes no other field of the body; the result does not depend on the
    [delta_time] argument. *)
Theorem apply_force_frame (self : ForceFieldCircle) (f : Vector2) (dt dt' : Q) :
  net_force_accumulated (apply_force self f dt)
    = vadd (net_force_accumulated self) f
  /\ velocity (apply_force self f dt) = velocity self
  /\ position (apply_force self f dt) = position self
  /\ pending_velocity_change (apply_force self f dt)
       = pending_velocity_change self
  /\ pending_position_correction (apply_force self f dt)
       = pending_position_correction self
  /\ mass (apply_force self f dt) = mass self
  /\ restitution (apply_force self f dt) = restitution self
  /\ radius (apply_force self f dt) = radius self
  /\ apply_force self f dt = apply_force self f dt'.
Proof. repeat split. Qed.

Lemma update_total (self : ForceFieldCircle) (dt : Q) (screen_rect : Rect) :
  update self dt screen_rect
    = Ok (boundary (IntegratorSpec.integrate dt self) screen_rect).
Proof.
  unfold update, IntegratorSpec.integrate, IntegratorSpec.step_a, vdiv.
  case_Qltb 0 (mass self); [|reflexivity].
  destruct (Qeq_bool (mass self) 0) eqn:Em; [|reflexivity].
  apply Qeq_bool_iff in Em. rewrite Em in E. discriminate.
Qed.

(** C2.  [update] never raises and is the five integration steps (a) to (e)
    of the specification, in that order, followed by the boundary clamp;
    the accumulated force of the result is zero whatever the mass. *)
Theorem update_order (self : ForceFieldCircle) (dt : Q) (screen_rect : Rect) :
  update self dt screen_rect
    = Ok (boundary (IntegratorSpec.integrate dt self) screen_rect)
  /\ net_force_accumulated
       (boundary (IntegratorSpec.integrate dt self) screen_rect) = vzero.
Proof.
  split.
  - apply update_total.
  - rewrite boundary_net_force. reflexivity.
Qed.

(** One step of a body of mass 2 at rest in a constant field (0, 10), with
    [dt = 1]: the velocity becomes (0, 5) and the position moves by (0, 5),
    the acceleration being applied before the position advances. *)
Example force_only_motion :
  exists b',
    step 1 1 (mkScenario [constant_field; ECircle pushed] arena)
    = Ok [constant_field; ECircle b']
    /\ veq (velocity b') (mkVector2 0 5)
    /\ veq (position b') (vadd (position pushed) (mkVector2 0 5))
    /\ net_force_accumulated b' = vzero.
Proof.
  eexists. split; [vm_compute; reflexivity|].
  repeat split; vm_compute; reflexivity.
Qed.

(** ** The boundary clamp *)

Ltac bounce_post :=
  unfold bounce_left, bounce_right, bounce_top, bounce_bottom;
  match goal with
  | |- context [if Qltb ?a ?b then _ else _] => case_Qltb a b
  end;
  unfold damp_x, damp_y;
  try match goal with
  | |- context [if ?c then _ else _] => destruct c
  end;
  cbn in *; repeat split; try reflexivity; try lra; auto.

Lemma bounce_left_post (b : ForceFieldCircle) (r : Rect) :
  radius (bounce_left b r) = radius b
  /\ y (position (bounce_left b r)) = y (position b)
  /\ rect_left r + radius b <= x (position (bounce_left b r)).
Proof. bounce_post. Qed.

Lemma bounce_right_post (b : ForceFieldCircle) (r : Rect) :
  radius (bounce_right b r) = radius b
  /\ y (position (bounce_right b r)) = y (position b)
  /\ x (position (bounce_right b r)) <= rect_right r - radius b
  /\ (x (position (bounce_right b r)) = x (position b)
      \/ x (position (bounce_right b r)) = rect_right r - radius b).
Proof. bounce_post. Qed.

Lemma bounce_top_post (b : ForceFieldCircle) (r : Rect) :
  radius (bounce_top b r) = radius b
  /\ x (position (bounce_top b r)) = x (position b)
  /\ rect_top r + radius b <= y (position (bounce_top b r)).
Proof. bounce_post. Qed.

Lemma bounce_bottom_post (b : ForceFieldCircle) (r : Rect) :
  radius (bounce_bottom b r) = radius b
  /\ x (position (bounce_bottom b r)) = x (position b)
  /\ y (position (bounce_bottom b r)) <= rect_bottom r - radius b
  /\ (y (position (bounce_bottom b r)) = y (position b)
      \/ y (position (bounce_bottom b r)) = rect_bottom r - radius b).
Proof. bounce_post. Qed.

Lemma boundary_contains (b : ForceFieldCircle) (r : Rect) :
  rect_left r + radius b <= rect_right r - radius b ->
  rect_top r + radius b <= rect_bottom r - radius b ->
  radius (boundary b r) = radius b
  /\ rect_left r + radius b <= x (position (boundary b r))
  /\ x (position (boundary b r)) <= rect_right r - radius b
  /\ rect_top r + radius b <= y (position (boundary b r))
  /\ y (position (boundary b r)) <= rect_bottom r - radius b.
Proof.
  intros Hx Hy. unfold boundary.
  destruct (bounce_left_post b r) as (R1 & Y1 & L1).
  destruct (bounce_right_post (bounce_left b r) r) as (R2 & Y2 & U2 & C2).
  rewrite R1 in R2, U2, C2. rewrite Y1 in Y2.
  destruct (bounce_top_post (bounce_right (bounce_left b r) r) r)
    as (R3 & X3 & L3).
  rewrite R2 in R3, L3.
  destruct (bounce_bottom_post
              (bounce_top (bounce_right (bounce_left b r) r) r) r)
    as (R4 & X4 & U4 & C4).
  rewrite R3 in R4, U4, C4. rewrite X3 in X4.
  rewrite R4, X4.
  split; [reflexivity|]. split; [|split; [assumption|split; [|assumption]]].
  - destruct C2 as [C2|C2]; rewrite C2; assumption.
  - destruct C4 as [C4|C4]; rewrite C4; assumption.
Qed.

(** C4, as stated, fails: a body of radius 6 in a 10 by 10 rectangle ends
    its update at x = 4, left of [left + radius = 6]. *)
Lemma boundary_containment_counterexample :
  exists b',
    update oversized 1 small_rect = Ok b'
    /\ ~ (rect_left small_rect + radius b' <= x (position b')).
Proof.
  eexists. split.
  - vm_compute. reflexivity.
  - cbn. intro H. apply Qle_bool_iff in H. vm_compute in H. discriminate.
Qed.

(** C4, amended.  When the rectangle is at least as wide and as high as the
    body's diameter, the position after one update has
    [left + radius <= x <= right - radius] and
    [top + radius <= y <= bottom - radius], whatever the velocity. *)
Theorem boundary_containment
  (self b' : ForceFieldCircle) (dt : Q) (screen_rect : Rect) :
  rect_left screen_rect + radius self <= rect_right screen_rect - radius self ->
  rect_top screen_rect + radius self <= rect_bottom screen_rect - radius self ->
  update self dt screen_rect = Ok b' ->
  (rect_left screen_rect + radius b' <= x (position b')
   /\ x (position b') <= rect_right screen_rect - radius b')
  /\ (rect_top screen_rect + radius b' <= y (position b')
      /\ y (position b') <= rect_bottom screen_rect - radius b').
Proof.
  intros Hx Hy Hu. rewrite update_total in Hu. injection Hu as <-.
  assert (Hr : radius (IntegratorSpec.integrate dt self) = radius self).
  { unfold IntegratorSpec.integrate, IntegratorSpec.step_a.
    destruct (Qltb 0 (mass self)); reflexivity. }
  destruct (boundary_contains (IntegratorSpec.integrate dt self) screen_rect)
    as (R & A & B & C & D); rewrite ?Hr; try assumption.
  rewrite R, Hr. rewrite Hr in *. repeat split; assumption.
Qed.

Lemma boundary_containment_witness :
  exists b',
    update fast_body 1 small_rect = Ok b'
    /\ (rect_left small_rect + radius b' <= x (position b')
        /\ x (position b') <= rect_right small_rect - radius b')
    /\ (rect_top small_rect + radius b' <= y (position b')
        /\ y (position b') <= rect_bottom small_rect - radius b').
Proof.
  eexists. split; [vm_compute; reflexivity|].
  apply (boundary_containment fast_body _ 1 small_rect).
  - vm_compute. discriminate.
  - vm_compute. discriminate.
  - vm_compute. reflexivity.
Defined.

(** C9.  On each of the four edges, a bounce whose reflected velocity
    component, [v * -restitution], has magnitude below 0.1 leaves that
    component exactly 0. *)
Theorem bounce_anti_jitter (self : ForceFieldCircle) (screen_rect : Rect) :
  (x (position self) - radius self < rect_left screen_rect ->
   Qabs (x (velocity self) * - restitution self) < 1 # 10 ->
   x (velocity (bounce_left self screen_rect)) = 0)
  /\ (rect_right screen_rect < x (position self) + radius self ->
      Qabs (x (velocity self) * - restitution self) < 1 # 10 ->
      x (velocity (bounce_right self screen_rect)) = 0)
  /\ (y (position self) - radius self < rect_top screen_rect ->
      Qabs (y (velocity self) * - restitution self) < 1 # 10 ->
      y (velocity (bounce_top self screen_rect)) = 0)
  /\ (rect_bottom screen_rect < y (position self) + radius self ->
      Qabs (y (velocity self) * - restitution self) < 1 # 10 ->
      y (velocity (bounce_bottom self screen_rect)) = 0).
Proof.
  repeat split; intros Hc Hv; apply Qltb_true in Hc; apply Qltb_true in Hv;
    unfold bounce_left, bounce_right, bounce_top, bounce_bottom;
    rewrite Hc; unfold damp_x, damp_y; cbn in *; rewrite Hv; reflexivity.
Qed.

Lemma bounce_anti_jitter_witness :
  x (velocity (bounce_left jitter tiny_rect)) = 0
  /\ x (velocity (bounce_right jitter tiny_rect)) = 0
  /\ y (velocity (bounce_top jitter tiny_rect)) = 0
  /\ y (velocity (bounce_bottom jitter tiny_rect)) = 0.
Proof.
  destruct (bounce_anti_jitter jitter tiny_rect) as (L & R & T & B).
  split; [apply L|split; [apply R|split; [apply T|apply B]]];
    vm_compute; reflexivity.
Defined.

(** The same, seen from the end of the clamp: a component that any edge
    reflected ends at 0 or with magnitude at least 0.1. *)
Lemma damp_x_settled (b : ForceFieldCircle) :
  x (velocity (damp_x b)) = 0 \/ 1 # 10 <= Qabs (x (velocity (damp_x b))).
Proof.
  unfold damp_x. case_Qltb (Qabs (x (velocity b))) (1 # 10); [left|right]; auto.
Qed.

Lemma damp_y_settled (b : ForceFieldCircle) :
  y (velocity (damp_y b)) = 0 \/ 1 # 10 <= Qabs (y (velocity (damp_y b))).
Proof.
  unfold damp_y. case_Qltb (Qabs (y (velocity b))) (1 # 10); [left|right]; auto.
Qed.

Lemma vertical_bounce_keeps_x (b : ForceFieldCircle) (r : Rect) :
  x (velocity (bounce_top b r)) = x (velocity b)
  /\ x (velocity (bounce_bottom b r)) = x (velocity b).
Proof. bounce_cases. Qed.

Lemma boundary_settles_x (b : ForceFieldCircle) (r : Rect) :
  x (position b) - radius b < rect_left r
  \/ rect_right r
       < x (position (bounce_left b r)) + radius (bounce_left b r) ->
  x (velocity (boundary b r)) = 0
  \/ 1 # 10 <= Qabs (x (velocity (boundary b r))).
Proof.
  intro H. unfold boundary.
  rewrite (proj2 (vertical_bounce_keeps_x _ r)).
  rewrite (proj1 (vertical_bounce_keeps_x _ r)).
  unfold bounce_right.
  case_Qltb (rect_right r)
    (x (position (bounce_left b r)) + radius (bounce_left b r)).
  - apply damp_x_settled.
  - destruct H as [H|H].
    + unfold bounce_left. apply Qltb_true in H. rewrite H.
      apply damp_x_settled.
    + exfalso. apply (Qlt_not_le _ _ H E).
Qed.

Lemma boundary_settles_y (b : ForceFieldCircle) (r : Rect) :
  let b2 := bounce_right (bounce_left b r) r in
  y (position b2) - radius b2 < rect_top r
  \/ rect_bottom r
       < y (position (bounce_top b2 r)) + radius (bounce_top b2 r) ->
  y (velocity (boundary b r)) = 0
  \/ 1 # 10 <= Qabs (y (velocity (boundary b r))).
Proof.
  intros b2 H. unfold boundary. fold b2.
  unfold bounce_bottom.
  case_Qltb (rect_bottom r)
    (y (position (bounce_top b2 r)) + radius (bounce_top b2 r)).
  - apply damp_y_settled.
  - destruct H as [H|H].
    + unfold bounce_top. apply Qltb_true in H. rewrite H.
      apply damp_y_settled.
    + exfalso. apply (Qlt_not_le _ _ H E).
Qed.

(** ** The square root *)

Lemma Qsqrt_compat (p q : Q) : p == q -> Qsqrt p = Qsqrt q.
Proof. intro H. unfold Qsqrt. rewrite (Qred_complete _ _ H). reflexivity. Qed.

Lemma Qred_coprime (n : Z) (d : positive) :
  Z.gcd n (Zpos d) = 1%Z -> Qred (n # d) = n # d.
Proof.
  intro Hg. unfold Qred.
  pose proof (Z.ggcd_gcd n (Zpos d)) as G.
  pose proof (Z.ggcd_correct_divisors n (Zpos d)) as D.
  destruct (Z.ggcd n (Zpos d)) as [g [aa bb]]. cbn in *.
  subst g. rewrite Hg in D. destruct D as [Dn Dd].
  rewrite Z.mul_1_l in Dn, Dd. subst aa. rewrite <- Dd. reflexivity.
Qed.

Lemma coprime_squares (n d : Z) :
  Z.gcd n d = 1%Z -> Z.gcd (n * n) (d * d) = 1%Z.
Proof.
  intro H. change (Z.coprime (n * n) (d * d)). change (Z.coprime n d) in H.
  apply Z.coprime_mul_l; apply Z.coprime_mul_r; assumption.
Qed.

(** [Qsqrt] is exact on squares. *)
Lemma Qsqrt_square (a : Q) : Qsqrt (a * a) == Qabs a.
Proof.
  rewrite (Qsqrt_compat (a * a) (Qred a * Qred a))
    by (rewrite Qred_correct; reflexivity).
  rewrite <- (Qabs_wd _ _ (Qred_correct a)).
  pose proof (gcd_Qred a) as G.
  destruct (Qred a) as [n d]. cbn in G.
  unfold Qsqrt. change ((n # d) * (n # d)) with (n * n # d * d).
  rewrite Qred_coprime
    by (rewrite Pos2Z.inj_mul; apply coprime_squares; assumption).
  cbn [Qnum Qden].
  replace (n * n * Zpos (d * d))%Z with ((n * Zpos d) * (n * Zpos d))%Z
    by (rewrite Pos2Z.inj_mul; ring).
  rewrite <- Z.abs_square. rewrite Z.sqrt_square by apply Z.abs_nonneg.
  unfold Qabs, Qeq. cbn. rewrite Z.abs_mul, Pos2Z.inj_mul.
  rewrite (Z.abs_eq (Zpos d)) by apply Pos2Z.is_nonneg. ring.
Qed.

Lemma Qsqrt_exact (q a : Q) : 0 <= a -> q == a * a -> Qsqrt q == a.
Proof.
  intros Ha Hq. rewrite (Qsqrt_compat _ _ Hq), Qsqrt_square.
  apply Qabs_pos. assumption.
Qed.

Lemma length_squared_vsub_sym (u v : Vector2) :
  length_squared (vsub u v) == length_squared (vsub v u).
Proof. unfold length_squared, dot, vsub. cbn. ring. Qed.

(** The length that [normalize] computes on [self - other] is the distance
    that [distance_to] computed. *)
Lemma vlength_vsub_distance (u v : Vector2) :
  vlength (vsub u v) = distance_to u v.
Proof.
  unfold distance_to, vlength. apply Qsqrt_compat, length_squared_vsub_sym.
Qed.

Lemma distance_to_coincident (u v : Vector2) :
  veq u v -> distance_to u v == 0.
Proof.
  intros [Hx Hy]. unfold distance_to, vlength.
  apply Qsqrt_exact; [lra|].
  unfold length_squared, dot, vsub. cbn. rewrite Hx, Hy. ring.
Qed.

Lemma normalize_separation (a b : ForceFieldCircle) :
  ~ distance a b == 0 ->
  normalize (vsub (position a) (position b)) = Ok (direction a b).
Proof.
  intro Hd. unfold normalize, direction. cbv zeta.
  rewrite vlength_vsub_distance. fold (distance a b).
  apply Qeq_bool_false in Hd. rewrite Hd. reflexivity.
Qed.

Ltac enter_overlap a b Hlt Hnz :=
  unfold resolve_circle; cbv zeta;
  fold (distance a b); fold (combined_radii a b);
  rewrite (proj2 (Qltb_true _ _) Hlt);
  rewrite (proj2 (Qeq_bool_false _ _) Hnz);
  cbn [andb negb];
  rewrite (normalize_separation a b Hnz); cbn [bind];
  cbn [velocity restitution mass pending_velocity_change
       pending_position_correction set_pending_position_correction];
  fold (velocity_along_normal a b).

(** No overlap, or coincident centres: nothing is written. *)
Lemma resolve_circle_skip (a b : ForceFieldCircle) :
  combined_radii a b <= distance a b \/ distance a b == 0 ->
  resolve_circle a b = Ok (a, b).
Proof.
  intro H. unfold resolve_circle. cbv zeta.
  fold (distance a b). fold (combined_radii a b).
  destruct H as [H|H].
  - apply Qltb_false in H. rewrite H. reflexivity.
  - apply Qeq_bool_iff in H. rewrite H. rewrite andb_false_r. reflexivity.
Qed.

(** Overlap, bodies not approaching: the positional correction only. *)
Lemma resolve_circle_separating (a b : ForceFieldCircle) :
  distance a b < combined_radii a b -> ~ distance a b == 0 ->
  0 <= velocity_along_normal a b ->
  resolve_circle a b = Ok (corrected_self a b, corrected_other a b).
Proof.
  intros Hlt Hnz Hv. enter_overlap a b Hlt Hnz.
  rewrite (proj2 (Qltb_false _ _) Hv). reflexivity.
Qed.

(** Overlap, approaching, a zero mass: [1 / mass] raises. *)
Lemma resolve_circle_zero_mass (a b : ForceFieldCircle) :
  distance a b < combined_radii a b -> ~ distance a b == 0 ->
  velocity_along_normal a b < 0 ->
  mass a == 0 \/ mass b == 0 ->
  resolve_circle a b = Raise ZeroDivisionError.
Proof.
  intros Hlt Hnz Hv Hm. enter_overlap a b Hlt Hnz.
  rewrite (proj2 (Qltb_true _ _) Hv). unfold pydiv.
  destruct (Qeq_bool (mass a) 0) eqn:Ea; [reflexivity|]. cbn [bind].
  destruct Hm as [Hm|Hm]; apply Qeq_bool_iff in Hm; [congruence|].
  rewrite Hm. reflexivity.
Qed.

(** Overlap, approaching, inverse masses that cancel: the early return. *)
Lemma resolve_circle_zero_divisor (a b : ForceFieldCircle) :
  distance a b < combined_radii a b -> ~ distance a b == 0 ->
  velocity_along_normal a b < 0 ->
  ~ mass a == 0 -> ~ mass b == 0 -> j_divisor a b == 0 ->
  resolve_circle a b = Ok (corrected_self a b, corrected_other a b).
Proof.
  intros Hlt Hnz Hv Ha Hb Hj. enter_overlap a b Hlt Hnz.
  rewrite (proj2 (Qltb_true _ _) Hv). unfold pydiv.
  rewrite (proj2 (Qeq_bool_false _ _) Ha), (proj2 (Qeq_bool_false _ _) Hb).
  cbn [bind]. fold (j_divisor a b).
  rewrite (proj2 (Qeq_bool_iff _ _) Hj). reflexivity.
Qed.

(** Overlap, approaching, a usable divisor: correction and impulse. *)
Lemma resolve_circle_impulse (a b : ForceFieldCircle) :
  distance a b < combined_radii a b -> ~ distance a b == 0 ->
  velocity_along_normal a b < 0 ->
  ~ mass a == 0 -> ~ mass b == 0 -> ~ j_divisor a b == 0 ->
  resolve_circle a b = Ok (impulsed_self a b, impulsed_other a b).
Proof.
  intros Hlt Hnz Hv Ha Hb Hj. enter_overlap a b Hlt Hnz.
  rewrite (proj2 (Qltb_true _ _) Hv). unfold pydiv, vdiv.
  rewrite (proj2 (Qeq_bool_false _ _) Ha), (proj2 (Qeq_bool_false _ _) Hb).
  cbn [bind]. fold (j_divisor a b).
  rewrite (proj2 (Qeq_bool_false _ _) Hj). reflexivity.
Qed.

Lemma resolve_circle_cases (a b : ForceFieldCircle) :
  resolve_circle a b = Raise ZeroDivisionError
  \/ resolve_circle a b = Ok (a, b)
  \/ resolve_circle a b = Ok (corrected_self a b, corrected_other a b)
  \/ resolve_circle a b = Ok (impulsed_self a b, impulsed_other a b).
Proof.
  destruct (Qlt_le_dec (distance a b) (combined_radii a b)) as [Hlt|Hge];
    [|right; left; apply resolve_circle_skip; left; exact Hge].
  destruct (Qeq_dec (distance a b) 0) as [Hz|Hnz];
    [right; left; apply resolve_circle_skip; right; exact Hz|].
  destruct (Qlt_le_dec (velocity_along_normal a b) 0) as [Hv|Hv];
    [|right; right; left; apply resolve_circle_separating; assumption].
  destruct (Qeq_dec (mass a) 0) as [Ha|Ha];
    [left; apply resolve_circle_zero_mass; auto|].
  destruct (Qeq_dec (mass b) 0) as [Hb|Hb];
    [left; apply resolve_circle_zero_mass; auto|].
  destruct (Qeq_dec (j_divisor a b) 0) as [Hj|Hj].
  - right; right; left. apply resolve_circle_zero_divisor; assumption.
  - right; right; right. apply resolve_circle_impulse; assumption.
Qed.

Lemma resolve_collision_circle (a b : ForceFieldCircle) :
  resolve_collision a (ECircle b)
  = match resolve_circle a b with
    | Ok r => Ok (fst r, ECircle (snd r))
    | Raise e => Raise e
    end.
Proof. reflexivity. Qed.

Lemma resolve_collision_ok (a b a' b' : ForceFieldCircle) :
  resolve_circle a b = Ok (a', b') ->
  resolve_collision a (ECircle b) = Ok (a', ECircle b').
Proof. intro H. rewrite resolve_collision_circle, H. reflexivity. Qed.

Lemma resolve_collision_inv (a b a' b' : ForceFieldCircle) :
  resolve_collision a (ECircle b) = Ok (a', ECircle b') ->
  resolve_circle a b = Ok (a', b').
Proof.
  rewrite resolve_collision_circle.
  destruct (resolve_circle a b) as [[a0 b0]|e]; [|discriminate].
  cbn. intro H. injection H as -> ->. reflexivity.
Qed.

(** The guard of line 66 at work: with non-zero masses whose inverses
    cancel, the call returns and the pending velocity changes are those of
    before the call. *)
Lemma resolve_collision_inverse_mass_guard (a b : ForceFieldCircle) :
  0 < distance a b -> distance a b < radius a + radius b ->
  velocity_along_normal a b < 0 ->
  ~ mass a == 0 -> ~ mass b == 0 -> 1 / mass a + 1 / mass b == 0 ->
  exists a' b',
    resolve_collision a (ECircle b) = Ok (a', ECircle b')
    /\ pending_velocity_change a' = pending_velocity_change a
    /\ pending_velocity_change b' = pending_velocity_change b.
Proof.
  intros Hd Hlt Hv Ha Hb Hj.
  exists (corrected_self a b), (corrected_other a b). split; [|split; reflexivity].
  apply resolve_collision_ok, resolve_circle_zero_divisor; auto.
  intro Hz. rewrite Hz in Hd. apply (Qlt_irrefl 0 Hd).
Qed.

(** C1.  The guard does not cover a mass of exactly 0: for an overlapping,
    approaching pair in which either mass is 0, [resolve_collision] raises
    [ZeroDivisionError] at [1 / mass], before the test of the divisor. *)
Theorem resolve_collision_zero_mass_raises (a b : ForceFieldCircle) :
  0 < distance a b -> distance a b < radius a + radius b ->
  velocity_along_normal a b < 0 ->
  mass a == 0 \/ mass b == 0 ->
  resolve_collision a (ECircle b) = Raise ZeroDivisionError.
Proof.
  intros Hd Hlt Hv Hm. rewrite resolve_collision_circle.
  rewrite resolve_circle_zero_mass; auto.
  intro Hz. rewrite Hz in Hd. apply (Qlt_irrefl 0 Hd).
Qed.

Lemma resolve_collision_zero_mass_raises_witness :
  resolve_collision massless (ECircle incoming) = Raise ZeroDivisionError.
Proof.
  apply (resolve_collision_zero_mass_raises massless incoming).
  - vm_compute. reflexivity.
  - vm_compute. reflexivity.
  - vm_compute. reflexivity.
  - left. vm_compute. reflexivity.
Defined.

(** When the square root is exact at the separation of the centres, the
    direction has unit length. *)
Lemma direction_unit (a b : ForceFieldCircle) :
  0 < distance a b ->
  distance a b * distance a b
    == length_squared (vsub (position a) (position b)) ->
  dot (direction a b) (direction a b) == 1.
Proof.
  intros Hd Hx. unfold direction. cbv zeta.
  rewrite vlength_vsub_distance. fold (distance a b).
  unfold dot. cbn [x y].
  unfold length_squared, dot in Hx.
  set (d := distance a b) in *.
  set (dx := x (vsub (position a) (position b))) in *.
  set (dy := y (vsub (position a) (position b))) in *.
  assert (E : dx / d * (dx / d) + dy / d * (dy / d)
              == (dx * dx + dy * dy) / (d * d)) by (field; lra).
  rewrite E, <- Hx. field. lra.
Qed.

Lemma separation_along_direction (a b : ForceFieldCircle) :
  0 < distance a b ->
  veq (vsub (position a) (position b))
      (vscale (direction a b) (distance a b)).
Proof.
  intro Hd. unfold direction. cbv zeta.
  rewrite vlength_vsub_distance. fold (distance a b).
  split; cbn [x y vscale]; field; lra.
Qed.

(** C3, as stated, fails: with masses 1 and -1 the inverse-mass sum is 0,
    no impulse scalar [j] exists, and the code writes no velocity change
    although the pair approaches. *)
Lemma resolve_collision_overlap_counterexample :
  0 < distance unit_mass negative_mass
  /\ distance unit_mass negative_mass < radius unit_mass + radius negative_mass
  /\ velocity_along_normal unit_mass negative_mass < 0
  /\ pydiv (- (1 + pymin (restitution unit_mass) (restitution negative_mass))
            * velocity_along_normal unit_mass negative_mass)
           (1 / mass unit_mass + 1 / mass negative_mass)
     = Raise ZeroDivisionError
  /\ exists a' b',
       resolve_collision unit_mass (ECircle negative_mass)
       = Ok (a', ECircle b')
       /\ pending_velocity_change a' = pending_velocity_change unit_mass
       /\ pending_velocity_change b' = pending_velocity_change negative_mass.
Proof.
  repeat split; try (vm_compute; reflexivity).
  eexists. eexists. split; [vm_compute; reflexivity|]. split; reflexivity.
Qed.

(** C3, amended.  For a pair with [0 < d < radiusA + radiusB], [d] being
    the exact distance of the centres, [dir] is the unit vector from B's
    centre to A's, and [resolve_collision] on A adds [dir * (overlap / 2)]
    to A's pending position correction and subtracts it from B's.  If the
    velocity along [dir] is not negative nothing else is written.  If it
    is negative and
    both masses and the inverse-mass sum are non-zero, [(dir * j) / massA]
    is added to A's pending velocity change and [(dir * j) / massB]
    subtracted from B's, with
    [j = -(1 + min eA eB) * vAlongNormal / (1/massA + 1/massB)].  If it is
    negative and the inverse-mass sum is zero no velocity change is
    written. *)
Theorem resolve_collision_overlap (a b : ForceFieldCircle) :
  0 < distance a b -> distance a b < radius a + radius b ->
  exact_separation a b ->
  (dot (direction a b) (direction a b) == 1
   /\ veq (vsub (position a) (position b))
          (vscale (direction a b) (distance a b)))
  /\ (0 <= velocity_along_normal a b ->
   resolve_collision a (ECircle b)
   = Ok (corrected_self a b, ECircle (corrected_other a b)))
  /\ (velocity_along_normal a b < 0 ->
      ~ mass a == 0 -> ~ mass b == 0 -> ~ 1 / mass a + 1 / mass b == 0 ->
      resolve_collision a (ECircle b)
      = Ok (impulsed_self a b, ECircle (impulsed_other a b)))
  /\ (velocity_along_normal a b < 0 ->
      ~ mass a == 0 -> ~ mass b == 0 -> 1 / mass a + 1 / mass b == 0 ->
      resolve_collision a (ECircle b)
      = Ok (corrected_self a b, ECircle (corrected_other a b)))
  /\ pending_position_correction (corrected_self a b)
     = vadd (pending_position_correction a)
            (vscale (direction a b) ((radius a + radius b - distance a b) / 2))
  /\ pending_position_correction (corrected_other a b)
     = vsub (pending_position_correction b)
            (vscale (direction a b) ((radius a + radius b - distance a b) / 2))
  /\ pending_velocity_change (corrected_self a b) = pending_velocity_change a
  /\ pending_velocity_change (corrected_other a b) = pending_velocity_change b
  /\ pending_position_correction (impulsed_self a b)
     = pending_position_correction (corrected_self a b)
  /\ pending_position_correction (impulsed_other a b)
     = pending_position_correction (corrected_other a b)
  /\ pending_velocity_change (impulsed_self a b)
     = vadd (pending_velocity_change a)
         (mkVector2
            (x (vscale (direction a b) (impulse_scalar a b)) / mass a)
            (y (vscale (direction a b) (impulse_scalar a b)) / mass a))
  /\ pending_velocity_change (impulsed_other a b)
     = vsub (pending_velocity_change b)
         (mkVector2
            (x (vscale (direction a b) (impulse_scalar a b)) / mass b)
            (y (vscale (direction a b) (impulse_scalar a b)) / mass b))
  /\ impulse_scalar a b
     = - (1 + pymin (restitution a) (restitution b))
       * dot (vsub (velocity a) (velocity b)) (direction a b)
       / (1 / mass a + 1 / mass b).
Proof.
  intros Hd Hlt Hx.
  assert (Hnz : ~ distance a b == 0).
  { intro Hz. rewrite Hz in Hd. apply (Qlt_irrefl 0 Hd). }
  split; [split|split; [|split; [|split; [|repeat split]]]].
  - apply direction_unit; assumption.
  - apply separation_along_direction; assumption.
  - intro Hv. apply resolve_collision_ok, resolve_circle_separating; auto.
  - intros Hv Ha Hb Hj. apply resolve_collision_ok, resolve_circle_impulse; auto.
  - intros Hv Ha Hb Hj.
    apply resolve_collision_ok, resolve_circle_zero_divisor; auto.
Qed.

Lemma resolve_collision_overlap_witness :
  resolve_collision unit_mass (ECircle incoming)
  = Ok (impulsed_self unit_mass incoming,
        ECircle (impulsed_other unit_mass incoming)).
Proof.
  apply (resolve_collision_overlap unit_mass incoming).
  - vm_compute. reflexivity.
  - vm_compute. reflexivity.
  - vm_compute. reflexivity.
  - vm_compute. reflexivity.
  - vm_compute. discriminate.
  - vm_compute. discriminate.
  - vm_compute. discriminate.
Defined.

(** C6, as stated, fails: one call on A also writes B's two pending
    fields (lines 57 and 73). *)
Lemma resolve_collision_writes_other_counterexample :
  exists a' b',
    resolve_collision unit_mass (ECircle incoming) = Ok (a', ECircle b')
    /\ ~ veq (pending_position_correction b')
             (pending_position_correction incoming)
    /\ ~ veq (pending_velocity_change b') (pending_velocity_change incoming).
Proof.
  eexists. eexists. split; [vm_compute; reflexivity|].
  split; intros [H _]; vm_compute in H; discriminate.
Qed.

(** C6, amended.  A call of [resolve_collision] on A that returns writes
    only the pending fields, of both bodies: A receives a position
    correction and B its opposite, A receives [impulse / massA] and B loses
    [impulse / massB]; position, velocity, mass, restitution, radius and
    accumulated force of both bodies are unchanged. *)
Theorem resolve_collision_frame (a b a' b' : ForceFieldCircle) :
  resolve_collision a (ECircle b) = Ok (a', ECircle b') ->
  (position a' = position a /\ velocity a' = velocity a
   /\ mass a' = mass a /\ restitution a' = restitution a
   /\ radius a' = radius a
   /\ net_force_accumulated a' = net_force_accumulated a)
  /\ (position b' = position b /\ velocity b' = velocity b
      /\ mass b' = mass b /\ restitution b' = restitution b
      /\ radius b' = radius b
      /\ net_force_accumulated b' = net_force_accumulated b)
  /\ exists correction impulse : Vector2,
       veq (pending_position_correction a')
           (vadd (pending_position_correction a) correction)
       /\ veq (pending_position_correction b')
              (vsub (pending_position_correction b) correction)
       /\ veq (pending_velocity_change a')
              (vadd (pending_velocity_change a)
                 (mkVector2 (x impulse / mass a) (y impulse / mass a)))
       /\ veq (pending_velocity_change b')
              (vsub (pending_velocity_change b)
                 (mkVector2 (x impulse / mass b) (y impulse / mass b))).
Proof.
  intro H. apply resolve_collision_inv in H.
  destruct (resolve_circle_cases a b) as [C|[C|[C|C]]];
    rewrite C in H; try discriminate; injection H as <- <-;
    (split; [repeat split|split; [repeat split|]]).
  - exists vzero, vzero.
    repeat split; cbn; unfold Qdiv; ring.
  - exists (vscale (direction a b) (overlap a b / 2)), vzero.
    repeat split; cbn; unfold Qdiv; ring.
  - exists (vscale (direction a b) (overlap a b / 2)),
      (vscale (direction a b) (impulse_scalar a b)).
    repeat split; cbn; reflexivity.
Qed.

Lemma resolve_collision_frame_witness :
  exists a' b',
    resolve_collision unit_mass (ECircle incoming) = Ok (a', ECircle b')
    /\ position a' = position unit_mass
    /\ position b' = position incoming.
Proof.
  eexists. eexists. split; [vm_compute; reflexivity|].
  pose proof (resolve_collision_frame unit_mass incoming _ _ eq_refl)
    as (Ha & Hb & _).
  split; [apply Ha|apply Hb].
Defined.

(** ** Coincident centres *)

Lemma resolve_circle_coincident (a b : ForceFieldCircle) :
  veq (position a) (position b) -> resolve_circle a b = Ok (a, b).
Proof.
  intro H. apply resolve_circle_skip. right.
  apply distance_to_coincident, H.
Qed.

(** C7.  For two bodies at the same position, [resolve_collision] returns
    without writing anything, and in a registry made of the two bodies the
    step of either raises nothing: its collision pass leaves the body's own
    pending fields at zero and does not touch the other body. *)
Theorem coincident_pair_safe
  (a b : ForceFieldCircle) (dt : Q) (screen_rect : Rect) :
  veq (position a) (position b) ->
  resolve_collision a (ECircle b) = Ok (a, ECircle b)
  /\ resolve_collision b (ECircle a) = Ok (b, ECircle a)
  /\ calculate_physics 0 dt [ECircle a; ECircle b]
     = Ok [ECircle (reset_pending a); ECircle b]
  /\ calculate_physics 1 dt [ECircle a; ECircle b]
     = Ok [ECircle a; ECircle (reset_pending b)]
  /\ step 0 dt (mkScenario [ECircle a; ECircle b] screen_rect)
     = Ok [ECircle (boundary (IntegratorSpec.integrate dt (reset_pending a))
                      screen_rect);
           ECircle b]
  /\ step 1 dt (mkScenario [ECircle a; ECircle b] screen_rect)
     = Ok [ECircle a;
           ECircle (boundary (IntegratorSpec.integrate dt (reset_pending b))
                      screen_rect)].
Proof.
  intro Hp.
  assert (Hq : veq (position b) (position a)).
  { destruct Hp as [Hx Hy]. split; symmetry; assumption. }
  assert (Ca : calculate_physics 0 dt [ECircle a; ECircle b]
               = Ok [ECircle (reset_pending a); ECircle b]).
  { unfold calculate_physics. cbn.
    unfold collide. cbn.
    destruct (intersects _ _ _ _); [|reflexivity].
    rewrite (resolve_circle_coincident _ b) by exact Hp. reflexivity. }
  assert (Cb : calculate_physics 1 dt [ECircle a; ECircle b]
               = Ok [ECircle a; ECircle (reset_pending b)]).
  { unfold calculate_physics. cbn.
    unfold collide. cbn.
    destruct (intersects _ _ _ _); [|reflexivity].
    rewrite (resolve_circle_coincident _ a) by exact Hq. reflexivity. }
  repeat split.
  - apply resolve_collision_ok, resolve_circle_coincident, Hp.
  - apply resolve_collision_ok, resolve_circle_coincident, Hq.
  - exact Ca.
  - exact Cb.
  - unfold step. cbn [entities display_rect]. rewrite Ca. cbn [bind].
    unfold update_at. cbn. rewrite update_total. reflexivity.
  - unfold step. cbn [entities display_rect]. rewrite Cb. cbn [bind].
    unfold update_at. cbn. rewrite update_total. reflexivity.
Qed.

Lemma coincident_pair_safe_witness :
  resolve_collision twin_a (ECircle twin_b) = Ok (twin_a, ECircle twin_b).
Proof.
  apply (coincident_pair_safe twin_a twin_b 1 small_rect).
  split; vm_compute; reflexivity.
Defined.

(** ** Head-on elastic collision *)


Section HeadOn.

Variables a b : ForceFieldCircle.
Variable s : Q.

Hypothesis overlapping : distance a b < radius a + radius b.
Hypothesis apart : 0 < distance a b.
Hypothesis exact_distance :
  distance a b * distance a b
    == length_squared (vsub (position a) (position b)).
Hypothesis closing : 0 < s.
Hypothesis towards :
  veq (velocity a) (vscale (vsub (position b) (position a)) s).
Hypothesis opposite : veq (velocity b) (vscale (velocity a) (-1)).

Let ux := x (direction a b).
Let uy := y (direction a b).
Let d := distance a b.






Hypothesis unit_mass_a : mass a == 1.
Hypothesis unit_mass_b : mass b == 1.
Hypothesis elastic_a : restitution a == 1.
Hypothesis elastic_b : restitution b == 1.
Hypothesis fresh_a : veq (pending_velocity_change a) vzero.
Hypothesis fresh_b : veq (pending_velocity_change b) vzero.



End HeadOn.


(** ** Penetration *)

Lemma resolve_circle_overlap_correction (a b a' b' : ForceFieldCircle) :
  0 < distance a b -> distance a b < radius a + radius b ->
  resolve_circle a b = Ok (a', b') ->
  position a' = position a /\ position b' = position b
  /\ pending_position_correction a'
     = pending_position_correction (corrected_self a b)
  /\ pending_position_correction b'
     = pending_position_correction (corrected_other a b).
Proof.
  intros Hd Hlt H.
  assert (Hnz : ~ distance a b == 0).
  { intro Hz. rewrite Hz in Hd. apply (Qlt_irrefl 0 Hd). }
  destruct (Qlt_le_dec (velocity_along_normal a b) 0) as [Hv|Hv].
  - destruct (Qeq_dec (mass a) 0) as [Ha|Ha];
      [rewrite resolve_circle_zero_mass in H by auto; discriminate|].
    destruct (Qeq_dec (mass b) 0) as [Hb|Hb];
      [rewrite resolve_circle_zero_mass in H by auto; discriminate|].
    destruct (Qeq_dec (j_divisor a b) 0) as [Hj|Hj].
    + rewrite resolve_circle_zero_divisor in H by auto.
      injection H as <- <-. repeat split.
    + rewrite resolve_circle_impulse in H by auto.
      injection H as <- <-. repeat split.
  - rewrite resolve_circle_separating in H by auto.
    injection H as <- <-. repeat split.
Qed.

(** C5, as stated, fails.  Two resting bodies of radius 1 whose centres
    are 1 apart, far from the edges: after the step of each, in registry
    order, the centres are 7/4 apart.  Next to the left edge they end 3/2
    apart, also when detection runs for both before integration. *)
Lemma no_penetration_counterexample :
  intersects (get_collision_shape open_a) (get_collision_shape open_b)
    (position open_a) (position open_b) = true
  /\ (exists a' b',
        frame 1 (mkScenario [ECircle open_a; ECircle open_b] arena)
        = Ok [ECircle a'; ECircle b']
        /\ distance a' b' == 7 # 4
        /\ distance a' b' < radius a' + radius b' - (1 # 5))
  /\ intersects (get_collision_shape wall_a) (get_collision_shape wall_b)
       (position wall_a) (position wall_b) = true
  /\ (exists a' b',
        frame 1 (mkScenario [ECircle wall_a; ECircle wall_b] arena)
        = Ok [ECircle a'; ECircle b']
        /\ distance a' b' == 3 # 2
        /\ distance a' b' < radius a' + radius b' - (1 # 5))
  /\ (exists a' b',
        frame_phased 1 (mkScenario [ECircle wall_a; ECircle wall_b] arena)
        = Ok [ECircle a'; ECircle b']
        /\ distance a' b' == 3 # 2
        /\ distance a' b' < radius a' + radius b' - (1 # 5)).
Proof.
  split; [vm_compute; reflexivity|].
  split; [eexists; eexists; split;
          [vm_compute; reflexivity|split; vm_compute; reflexivity]|].
  split; [vm_compute; reflexivity|].
  split; eexists; eexists; (split;
          [vm_compute; reflexivity|split; vm_compute; reflexivity]).
Qed.

(** C5, amended.  For an overlapping pair whose centre distance is non-zero
    and computed exactly, with no pending position correction yet, the
    corrections that one call of [resolve_collision] records put the two
    centres exactly [radiusA + radiusB] apart once each is added to its
    body's position (line 106 of [update]). *)
Theorem correction_separates (a b a' b' : ForceFieldCircle) :
  0 < distance a b -> distance a b < radius a + radius b ->
  distance a b * distance a b
    == length_squared (vsub (position a) (position b)) ->
  veq (pending_position_correction a) vzero ->
  veq (pending_position_correction b) vzero ->
  resolve_collision a (ECircle b) = Ok (a', ECircle b') ->
  distance (IntegratorSpec.step_d a') (IntegratorSpec.step_d b')
    == radius a + radius b.
Proof.
  intros Hd Hlt Hx [Pax Pay] [Pbx Pby] H.
  apply resolve_collision_inv in H.
  destruct (resolve_circle_overlap_correction a b a' b' Hd Hlt H)
    as (Ea & Eb & Ca & Cb).
  unfold distance, distance_to, vlength, IntegratorSpec.step_d.
  cbn [position set_position]. rewrite Ea, Eb, Ca, Cb.
  pose proof (direction_unit a b Hd Hx) as U.
  destruct (separation_along_direction a b Hd) as [Sx Sy].
  unfold dot in U. cbn [x y vsub vscale vzero] in Sx, Sy, Pax, Pay, Pbx, Pby.
  apply Qsqrt_exact; [lra|].
  unfold length_squared, dot, corrected_self, corrected_other, overlap,
    combined_radii.
  cbn -[direction distance].
  set (ux := x (direction a b)) in *. set (uy := y (direction a b)) in *.
  set (d := distance a b) in *.
  rewrite Pax, Pay, Pbx, Pby.
  setoid_replace (x (position b)) with (x (position a) - ux * d) by lra.
  setoid_replace (y (position b)) with (y (position a) - uy * d) by lra.
  set (R := radius a + radius b).
  transitivity (R * R * (ux * ux + uy * uy)); [field|rewrite U; ring].
Qed.

Lemma correction_separates_witness :
  exists a' b',
    resolve_collision open_a (ECircle open_b) = Ok (a', ECircle b')
    /\ distance (IntegratorSpec.step_d a') (IntegratorSpec.step_d b')
       == radius open_a + radius open_b.
Proof.
  eexists. eexists. split; [vm_compute; reflexivity|].
  apply (correction_separates open_a open_b);
    try (vm_compute; reflexivity); split; vm_compute; reflexivity.
Defined.


(** ** Further properties of the collision resolution *)

Lemma Qsqrt_nonneg (q : Q) : 0 <= Qsqrt q.
Proof.
  unfold Qsqrt, Qle. cbn. rewrite Z.mul_1_r. apply Z.sqrt_nonneg.
Qed.

Lemma distance_nonneg (a b : ForceFieldCircle) : 0 <= distance a b.
Proof. apply Qsqrt_nonneg. Qed.

Lemma distance_positive (a b : ForceFieldCircle) :
  ~ distance a b == 0 <-> 0 < distance a b.
Proof.
  pose proof (distance_nonneg a b) as H. split; intro Hd.
  - apply Qle_lt_or_eq in H. destruct H as [H|H]; [exact H|].
    exfalso. apply Hd. symmetry. exact H.
  - intro Hz. rewrite Hz in Hd. apply (Qlt_irrefl 0 Hd).
Qed.

Lemma resolve_circle_resolution (a b : ForceFieldCircle) :
  resolution a b (resolve_circle a b).
Proof.
  destruct (Qlt_le_dec (distance a b) (combined_radii a b)) as [Hlt|Hge].
  2:{ rewrite resolve_circle_skip by (left; exact Hge).
      apply res_skip. left. exact Hge. }
  destruct (Qeq_dec (distance a b) 0) as [Hz|Hnz].
  { rewrite resolve_circle_skip by (right; exact Hz).
    apply res_skip. right. exact Hz. }
  pose proof (proj1 (distance_positive a b) Hnz) as Hd.
  destruct (Qlt_le_dec (velocity_along_normal a b) 0) as [Hv|Hv].
  2:{ rewrite resolve_circle_separating by assumption.
      apply res_separating; assumption. }
  destruct (Qeq_dec (mass a) 0) as [Ha|Ha].
  { rewrite resolve_circle_zero_mass by auto. apply res_zero_mass; auto. }
  destruct (Qeq_dec (mass b) 0) as [Hb|Hb].
  { rewrite resolve_circle_zero_mass by auto. apply res_zero_mass; auto. }
  destruct (Qeq_dec (j_divisor a b) 0) as [Hj|Hj].
  - rewrite resolve_circle_zero_divisor by assumption.
    apply res_zero_divisor; assumption.
  - rewrite resolve_circle_impulse by assumption.
    apply res_impulse; assumption.
Qed.

(** X1.  Where the distance of the centres is exact, [resolve_collision]
    on a circle raises exactly when the pair overlaps with distinct
    centres, approaches, and one of the two masses is zero.  Whatever the
    distance, [ValueError] (a null vector handed to [normalize]) is never
    raised. *)
Theorem resolve_collision_raises_iff (a b : ForceFieldCircle) :
  (exact_separation a b ->
   (raises (resolve_collision a (ECircle b))
    <-> 0 < distance a b /\ distance a b < radius a + radius b
        /\ velocity_along_normal a b < 0
        /\ (mass a == 0 \/ mass b == 0)))
  /\ resolve_collision a (ECircle b) <> Raise ValueError.
Proof.
  rewrite resolve_collision_circle.
  pose proof (resolve_circle_resolution a b) as R.
  split; [intros _; split|].
  - intros [e He].
    inversion R as [C E|D L V E|D L V M E|D L V Ma Mb J E|D L V Ma Mb J E];
      rewrite <- E in He; try discriminate.
    repeat split; assumption.
  - intros (D & L & V & M). exists ZeroDivisionError.
    rewrite resolve_circle_zero_mass; auto.
    apply distance_positive. exact D.
  - inversion R; discriminate.
Qed.

Lemma resolve_collision_raises_iff_witness :
  raises (resolve_collision massless (ECircle incoming))
  <-> 0 < distance massless incoming
      /\ distance massless incoming < radius massless + radius incoming
      /\ velocity_along_normal massless incoming < 0
      /\ (mass massless == 0 \/ mass incoming == 0).
Proof.
  apply (proj1 (resolve_collision_raises_iff massless incoming)).
  vm_compute. reflexivity.
Defined.

(** X2.  Whenever [resolve_collision] returns, the two velocity changes it
    recorded carry opposite momenta:
    [massA * dvA + massB * dvB = 0]. *)
Theorem resolve_collision_momentum (a b a' b' : ForceFieldCircle) :
  resolve_collision a (ECircle b) = Ok (a', ECircle b') ->
  veq (vadd
         (vscale (vsub (pending_velocity_change a')
                       (pending_velocity_change a)) (mass a))
         (vscale (vsub (pending_velocity_change b')
                       (pending_velocity_change b)) (mass b)))
      vzero.
Proof.
  intro H. apply resolve_collision_inv in H.
  pose proof (resolve_circle_resolution a b) as R. rewrite H in R.
  inversion R as [C E|D L V E|D L V M E|D L V Ma Mb J E|D L V Ma Mb J E];
    subst; split; cbn -[direction impulse_scalar]; try ring;
    field; repeat split; assumption.
Qed.

Lemma resolve_collision_momentum_witness :
  exists a' b',
    resolve_collision unit_mass (ECircle incoming) = Ok (a', ECircle b')
    /\ veq (vadd
              (vscale (vsub (pending_velocity_change a')
                            (pending_velocity_change unit_mass))
                      (mass unit_mass))
              (vscale (vsub (pending_velocity_change b')
                            (pending_velocity_change incoming))
                      (mass incoming)))
           vzero.
Proof.
  eexists. eexists. split; [vm_compute; reflexivity|].
  apply (resolve_collision_momentum unit_mass incoming).
  vm_compute. reflexivity.
Defined.

Lemma inverse_sum_nonzero (p q : Q) :
  ~ p == 0 -> ~ q == 0 -> ~ 1 / p + 1 / q == 0 -> ~ q + p == 0.
Proof.
  intros Hp Hq H S. apply H.
  setoid_replace (1 / p + 1 / q) with ((q + p) / (p * q))
    by (field; split; assumption).
  rewrite S. field. split; assumption.
Qed.

(** X3.  The law of restitution.  When the impulse is applied and the
    distance of the centres is computed exactly, the relative velocity
    along the normal, once both recorded changes are added, is
    [- min(eA, eB)] times what it was. *)
Theorem resolve_collision_restitution (a b a' b' : ForceFieldCircle) :
  0 < distance a b -> distance a b < radius a + radius b ->
  distance a b * distance a b
    == length_squared (vsub (position a) (position b)) ->
  velocity_along_normal a b < 0 ->
  ~ mass a == 0 -> ~ mass b == 0 -> ~ 1 / mass a + 1 / mass b == 0 ->
  resolve_collision a (ECircle b) = Ok (a', ECircle b') ->
  dot (vsub
         (vadd (velocity a)
               (vsub (pending_velocity_change a') (pending_velocity_change a)))
         (vadd (velocity b)
               (vsub (pending_velocity_change b') (pending_velocity_change b))))
      (direction a b)
  == - pymin (restitution a) (restitution b) * velocity_along_normal a b.
Proof.
  intros Hd Hlt Hx Hv Ha Hb Hj H.
  apply resolve_collision_inv in H.
  rewrite resolve_circle_impulse in H; auto;
    [|apply distance_positive; exact Hd].
  injection H as <- <-.
  pose proof (direction_unit a b Hd Hx) as U.
  unfold velocity_along_normal, dot in *.
  cbn -[direction impulse_scalar].
  unfold impulse_scalar, j_divisor, velocity_along_normal, dot.
  cbn -[direction].
  set (ux := x (direction a b)) in *. set (uy := y (direction a b)) in *.
  set (e := pymin (restitution a) (restitution b)).
  set (vn := (x (velocity a) - x (velocity b)) * ux
             + (y (velocity a) - y (velocity b)) * uy).
  transitivity (vn - (1 + e) * vn * (ux * ux + uy * uy)).
  - unfold vn. field.
    split; [exact Hb|split; [exact Ha|]].
    apply inverse_sum_nonzero; assumption.
  - rewrite U. ring.
Qed.

Lemma resolve_collision_restitution_witness :
  exists a' b',
    resolve_collision head_on_a (ECircle head_on_b) = Ok (a', ECircle b')
    /\ dot (vsub
              (vadd (velocity head_on_a)
                    (vsub (pending_velocity_change a')
                          (pending_velocity_change head_on_a)))
              (vadd (velocity head_on_b)
                    (vsub (pending_velocity_change b')
                          (pending_velocity_change head_on_b))))
           (direction head_on_a head_on_b)
       == - pymin (restitution head_on_a) (restitution head_on_b)
          * velocity_along_normal head_on_a head_on_b.
Proof.
  eexists. eexists. split; [vm_compute; reflexivity|].
  apply (resolve_collision_restitution head_on_a head_on_b);
    try (vm_compute; reflexivity); vm_compute; discriminate.
Defined.

(** ** Further properties of [update] *)

Lemma integrate_static (dt : Q) (b : ForceFieldCircle) :
  mass (IntegratorSpec.integrate dt b) = mass b
  /\ restitution (IntegratorSpec.integrate dt b) = restitution b
  /\ radius (IntegratorSpec.integrate dt b) = radius b
  /\ pending_velocity_change (IntegratorSpec.integrate dt b)
     = pending_velocity_change b
  /\ pending_position_correction (IntegratorSpec.integrate dt b)
     = pending_position_correction b.
Proof.
  unfold IntegratorSpec.integrate, IntegratorSpec.step_a.
  destruct (Qltb 0 (mass b)); repeat split.
Qed.

Lemma bounce_left_keeps (b : ForceFieldCircle) (r : Rect) :
  mass (bounce_left b r) = mass b
  /\ pending_velocity_change (bounce_left b r) = pending_velocity_change b
  /\ pending_position_correction (bounce_left b r)
     = pending_position_correction b.
Proof. bounce_cases. Qed.

Lemma bounce_right_keeps (b : ForceFieldCircle) (r : Rect) :
  mass (bounce_right b r) = mass b
  /\ pending_velocity_change (bounce_right b r) = pending_velocity_change b
  /\ pending_position_correction (bounce_right b r)
     = pending_position_correction b.
Proof. bounce_cases. Qed.

Lemma bounce_top_keeps (b : ForceFieldCircle) (r : Rect) :
  mass (bounce_top b r) = mass b
  /\ pending_velocity_change (bounce_top b r) = pending_velocity_change b
  /\ pending_position_correction (bounce_top b r)
     = pending_position_correction b.
Proof. bounce_cases. Qed.

Lemma bounce_bottom_keeps (b : ForceFieldCircle) (r : Rect) :
  mass (bounce_bottom b r) = mass b
  /\ pending_velocity_change (bounce_bottom b r) = pending_velocity_change b
  /\ pending_position_correction (bounce_bottom b r)
     = pending_position_correction b.
Proof. bounce_cases. Qed.

Lemma boundary_static (b : ForceFieldCircle) (r : Rect) :
  mass (boundary b r) = mass b
  /\ restitution (boundary b r) = restitution b
  /\ radius (boundary b r) = radius b
  /\ pending_velocity_change (boundary b r) = pending_velocity_change b
  /\ pending_position_correction (boundary b r)
     = pending_position_correction b.
Proof.
  unfold boundary.
  destruct (bounce_left_keeps b r) as (M1 & V1 & P1).
  destruct (bounce_left_static b r) as (R1 & E1 & _).
  destruct (bounce_right_keeps (bounce_left b r) r) as (M2 & V2 & P2).
  destruct (bounce_right_static (bounce_left b r) r) as (R2 & E2 & _).
  destruct (bounce_top_keeps (bounce_right (bounce_left b r) r) r)
    as (M3 & V3 & P3).
  destruct (bounce_top_static (bounce_right (bounce_left b r) r) r)
    as (R3 & E3 & _).
  destruct (bounce_bottom_keeps
              (bounce_top (bounce_right (bounce_left b r) r) r) r)
    as (M4 & V4 & P4).
  destruct (bounce_bottom_static
              (bounce_top (bounce_right (bounce_left b r) r) r) r)
    as (R4 & E4 & _).
  repeat split; congruence.
Qed.

(** X4.  [update] consumes the pending fields without clearing them: the
    body it returns has the mass, restitution, radius, pending velocity
    change and pending position correction it was given. *)
Theorem update_keeps_pending
  (self b' : ForceFieldCircle) (dt : Q) (screen_rect : Rect) :
  update self dt screen_rect = Ok b' ->
  mass b' = mass self /\ restitution b' = restitution self
  /\ radius b' = radius self
  /\ pending_velocity_change b' = pending_velocity_change self
  /\ pending_position_correction b' = pending_position_correction self.
Proof.
  intro H. rewrite update_total in H. injection H as <-.
  destruct (boundary_static (IntegratorSpec.integrate dt self) screen_rect)
    as (M & E & R & V & P).
  destruct (integrate_static dt self) as (M' & E' & R' & V' & P').
  repeat split; congruence.
Qed.

Lemma update_keeps_pending_witness :
  exists b',
    update (impulsed_self unit_mass incoming) 1 arena = Ok b'
    /\ pending_velocity_change b'
       = pending_velocity_change (impulsed_self unit_mass incoming).
Proof.
  eexists. split; [apply update_total|].
  apply (update_keeps_pending (impulsed_self unit_mass incoming) _ 1 arena).
  apply update_total.
Defined.

(** X5.  Whatever the rectangle and the radius, the position [update]
    returns has [x <= right - radius] and [y <= bottom - radius]: on each
    axis the far edge is clamped last. *)
Theorem update_far_edges (self : ForceFieldCircle) (dt : Q) (screen_rect : Rect) :
  exists b',
    update self dt screen_rect = Ok b'
    /\ x (position b') <= rect_right screen_rect - radius b'
    /\ y (position b') <= rect_bottom screen_rect - radius b'.
Proof.
  eexists. split; [apply update_total|].
  set (b := IntegratorSpec.integrate dt self). unfold boundary.
  destruct (bounce_right_post (bounce_left b screen_rect) screen_rect)
    as (R2 & Y2 & U2 & _).
  destruct (bounce_top_post
              (bounce_right (bounce_left b screen_rect) screen_rect)
              screen_rect) as (R3 & X3 & _).
  destruct (bounce_bottom_post
              (bounce_top
                 (bounce_right (bounce_left b screen_rect) screen_rect)
                 screen_rect) screen_rect) as (R4 & X4 & U4 & _).
  rewrite R4, X4, X3, R3, R2. split; [exact U2|].
  rewrite R3, R2 in U4. exact U4.
Qed.

Lemma boundary_inside (b : ForceFieldCircle) (r : Rect) :
  rect_left r <= x (position b) - radius b ->
  x (position b) + radius b <= rect_right r ->
  rect_top r <= y (position b) - radius b ->
  y (position b) + radius b <= rect_bottom r ->
  boundary b r = b.
Proof.
  intros L R T B.
  apply Qltb_false in L, R, T, B.
  unfold boundary.
  assert (E1 : bounce_left b r = b) by (unfold bounce_left; rewrite L; reflexivity).
  rewrite E1.
  assert (E2 : bounce_right b r = b)
    by (unfold bounce_right; rewrite R; reflexivity).
  rewrite E2.
  assert (E3 : bounce_top b r = b) by (unfold bounce_top; rewrite T; reflexivity).
  rewrite E3.
  unfold bounce_bottom. rewrite B. reflexivity.
Qed.

(** X6.  A body that ends the integration inside the rectangle, edges
    included, is returned as integrated: no clamp, no reflection, no
    damping of a small velocity. *)
Theorem update_inside (self : ForceFieldCircle) (dt : Q) (screen_rect : Rect) :
  let b := IntegratorSpec.integrate dt self in
  rect_left screen_rect <= x (position b) - radius b ->
  x (position b) + radius b <= rect_right screen_rect ->
  rect_top screen_rect <= y (position b) - radius b ->
  y (position b) + radius b <= rect_bottom screen_rect ->
  update self dt screen_rect = Ok b.
Proof.
  intros b L R T B. rewrite update_total. fold b.
  rewrite boundary_inside; auto.
Qed.

Lemma update_inside_witness :
  update drifting 1 arena = Ok (IntegratorSpec.integrate 1 drifting).
Proof.
  apply (update_inside drifting 1 arena); vm_compute; discriminate.
Defined.

(** X7.  When the rectangle is at least as wide and as high as the body's
    diameter, the boundary clamp is idempotent: clamping a clamped body
    changes nothing. *)
Theorem boundary_idempotent (b : ForceFieldCircle) (r : Rect) :
  rect_left r + radius b <= rect_right r - radius b ->
  rect_top r + radius b <= rect_bottom r - radius b ->
  boundary (boundary b r) r = boundary b r.
Proof.
  intros Hx Hy.
  destruct (boundary_contains b r Hx Hy) as (R & A & B & C & D).
  apply boundary_inside; rewrite R; lra.
Qed.

Lemma boundary_idempotent_witness :
  boundary (boundary fast_body small_rect) small_rect
  = boundary fast_body small_rect.
Proof.
  apply (boundary_idempotent fast_body small_rect); vm_compute; discriminate.
Defined.

Lemma reflect_shrinks (v e : Q) :
  0 <= e -> e <= 1 -> Qabs (v * - e) <= Qabs v.
Proof.
  intros H0 H1. rewrite Qabs_Qmult, Qabs_opp, (Qabs_pos e H0).
  pose proof (Qabs_nonneg v) as Hv.
  rewrite (Qmult_comm (Qabs v) e).
  setoid_replace (Qabs v) with (1 * Qabs v) at 2 by ring.
  apply Qmult_le_compat_r; assumption.
Qed.

Lemma damp_x_shrinks (b : ForceFieldCircle) :
  Qabs (x (velocity (damp_x b))) <= Qabs (x (velocity b))
  /\ y (velocity (damp_x b)) = y (velocity b).
Proof.
  unfold damp_x. destruct (Qltb _ _); cbn; split;
    try reflexivity; try apply Qle_refl. apply Qabs_nonneg.
Qed.

Lemma damp_y_shrinks (b : ForceFieldCircle) :
  Qabs (y (velocity (damp_y b))) <= Qabs (y (velocity b))
  /\ x (velocity (damp_y b)) = x (velocity b).
Proof.
  unfold damp_y. destruct (Qltb _ _); cbn; split;
    try reflexivity; try apply Qle_refl. apply Qabs_nonneg.
Qed.

Ltac bounce_speed :=
  unfold bounce_left, bounce_right, bounce_top, bounce_bottom;
  match goal with
  | |- context [if Qltb ?a ?b then _ else _] => destruct (Qltb a b)
  end;
  [|split; [apply Qle_refl|reflexivity]];
  let S := fresh "S" in
  let K := fresh "K" in
  match goal with
  | |- context [damp_x ?b] => destruct (damp_x_shrinks b) as [S K]
  | |- context [damp_y ?b] => destruct (damp_y_shrinks b) as [S K]
  end;
  split; [|rewrite K; reflexivity];
  eapply Qle_trans; [exact S|]; cbn; apply reflect_shrinks; assumption.

Lemma bounce_left_speed (b : ForceFieldCircle) (r : Rect) :
  0 <= restitution b -> restitution b <= 1 ->
  Qabs (x (velocity (bounce_left b r))) <= Qabs (x (velocity b))
  /\ y (velocity (bounce_left b r)) = y (velocity b).
Proof. intros H0 H1. bounce_speed. Qed.

Lemma bounce_right_speed (b : ForceFieldCircle) (r : Rect) :
  0 <= restitution b -> restitution b <= 1 ->
  Qabs (x (velocity (bounce_right b r))) <= Qabs (x (velocity b))
  /\ y (velocity (bounce_right b r)) = y (velocity b).
Proof. intros H0 H1. bounce_speed. Qed.

Lemma bounce_top_speed (b : ForceFieldCircle) (r : Rect) :
  0 <= restitution b -> restitution b <= 1 ->
  Qabs (y (velocity (bounce_top b r))) <= Qabs (y (velocity b))
  /\ x (velocity (bounce_top b r)) = x (velocity b).
Proof. intros H0 H1. bounce_speed. Qed.

Lemma bounce_bottom_speed (b : ForceFieldCircle) (r : Rect) :
  0 <= restitution b -> restitution b <= 1 ->
  Qabs (y (velocity (bounce_bottom b r))) <= Qabs (y (velocity b))
  /\ x (velocity (bounce_bottom b r)) = x (velocity b).
Proof. intros H0 H1. bounce_speed. Qed.

(** X8.  With a restitution between 0 and 1 the boundary logic of [update]
    never speeds a body up: on each axis the magnitude of the velocity
    returned is at most that of the velocity the integration produced. *)
Theorem update_walls_slow
  (self : ForceFieldCircle) (dt : Q) (screen_rect : Rect) :
  0 <= restitution self -> restitution self <= 1 ->
  exists b',
    update self dt screen_rect = Ok b'
    /\ Qabs (x (velocity b'))
       <= Qabs (x (velocity (IntegratorSpec.integrate dt self)))
    /\ Qabs (y (velocity b'))
       <= Qabs (y (velocity (IntegratorSpec.integrate dt self))).
Proof.
  intros H0 H1. eexists. split; [apply update_total|].
  destruct (integrate_static dt self) as (_ & E & _).
  set (b := IntegratorSpec.integrate dt self) in *.
  rewrite <- E in H0, H1. unfold boundary.
  destruct (bounce_left_static b screen_rect) as (_ & E1 & _).
  destruct (bounce_left_speed b screen_rect H0 H1) as [S1 K1].
  set (b1 := bounce_left b screen_rect) in *.
  rewrite <- E1 in H0, H1.
  destruct (bounce_right_static b1 screen_rect) as (_ & E2 & _).
  destruct (bounce_right_speed b1 screen_rect H0 H1) as [S2 K2].
  set (b2 := bounce_right b1 screen_rect) in *.
  rewrite <- E2 in H0, H1.
  destruct (bounce_top_static b2 screen_rect) as (_ & E3 & _).
  destruct (bounce_top_speed b2 screen_rect H0 H1) as [S3 K3].
  set (b3 := bounce_top b2 screen_rect) in *.
  rewrite <- E3 in H0, H1.
  destruct (bounce_bottom_speed b3 screen_rect H0 H1) as [S4 K4].
  set (b4 := bounce_bottom b3 screen_rect) in *.
  split.
  - rewrite K4, K3. eapply Qle_trans; [exact S2|exact S1].
  - eapply Qle_trans; [exact S4|]. eapply Qle_trans; [exact S3|].
    rewrite K2, K1. apply Qle_refl.
Qed.

Lemma update_walls_slow_witness :
  exists b',
    update fast_body 1 small_rect = Ok b'
    /\ Qabs (x (velocity b'))
       <= Qabs (x (velocity (IntegratorSpec.integrate 1 fast_body)))
    /\ Qabs (y (velocity b'))
       <= Qabs (y (velocity (IntegratorSpec.integrate 1 fast_body))).
Proof.
  apply (update_walls_slow fast_body 1 small_rect); vm_compute; discriminate.
Defined.

(** ** The detection pass over a registry *)

Lemma same_kinematics_refl (c : ForceFieldCircle) : same_kinematics c c.
Proof. repeat split. Qed.

Lemma same_kinematics_trans (c1 c2 c3 : ForceFieldCircle) :
  same_kinematics c1 c2 -> same_kinematics c2 c3 -> same_kinematics c1 c3.
Proof.
  intros (P & V & M & E & R) (P' & V' & M' & E' & R').
  repeat split; congruence.
Qed.

Lemma detection_frame_refl (e : entity) : detection_frame e e.
Proof. destruct e; cbn; auto using same_kinematics_refl. Qed.

Lemma detection_frame_trans (e1 e2 e3 : entity) :
  detection_frame e1 e2 -> detection_frame e2 e3 -> detection_frame e1 e3.
Proof.
  destruct e1, e2, e3; cbn; try contradiction; try congruence.
  apply same_kinematics_trans.
Qed.

Lemma frame_refl (l : list entity) : Forall2 detection_frame l l.
Proof. induction l; constructor; auto using detection_frame_refl. Qed.

Lemma frame_trans (l1 l2 l3 : list entity) :
  Forall2 detection_frame l1 l2 -> Forall2 detection_frame l2 l3 ->
  Forall2 detection_frame l1 l3.
Proof.
  intro H. revert l3. induction H; intros l3 H3; inversion H3; subst;
    constructor; eauto using detection_frame_trans.
Qed.

Lemma frame_store (l : list entity) (i : nat) (e e' : entity) :
  nth_error l i = Some e -> detection_frame e e' ->
  Forall2 detection_frame l (store l i e').
Proof.
  revert i. induction l as [|h t IH]; intros [|i] Hn Hf; cbn in *;
    try discriminate.
  - injection Hn as ->. constructor; [exact Hf|apply frame_refl].
  - constructor; [apply detection_frame_refl|eauto].
Qed.

Lemma frame_nth (l l' : list entity) (k : nat) (e : entity) :
  Forall2 detection_frame l l' -> nth_error l k = Some e ->
  exists e', nth_error l' k = Some e' /\ detection_frame e e'.
Proof.
  intro H. revert k. induction H; intros [|k] Hn; cbn in *;
    try discriminate; eauto.
  injection Hn as ->. eauto.
Qed.

Lemma frame_nonzero (l l' : list entity) :
  Forall2 detection_frame l l' -> Forall nonzero_mass l ->
  Forall nonzero_mass l'.
Proof.
  induction 1 as [|e e' l l' He _ IH]; intro Hz; inversion Hz; subst;
    constructor; auto.
  destruct e, e'; cbn in *; try contradiction; auto.
  destruct He as (_ & _ & M & _). rewrite M. assumption.
Qed.

Lemma store_length (l : list entity) (i : nat) (e : entity) :
  length (store l i e) = length l.
Proof.
  revert i. induction l; intros [|i]; cbn; auto.
Qed.

Lemma nth_error_store_same (l : list entity) (i : nat) (e0 e : entity) :
  nth_error l i = Some e0 -> nth_error (store l i e) i = Some e.
Proof.
  revert i. induction l; intros [|i] H; cbn in *; try discriminate; auto.
Qed.

Lemma nth_error_store_other (l : list entity) (i j : nat) (e : entity) :
  i <> j -> nth_error (store l i e) j = nth_error l j.
Proof.
  revert i j. induction l as [|h t IH]; intros [|i] [|j] H; cbn; auto;
    try solve [exfalso; apply H; reflexivity].
Qed.

Lemma resolve_circle_kinematics (a b a' b' : ForceFieldCircle) :
  resolve_circle a b = Ok (a', b') ->
  same_kinematics a a' /\ same_kinematics b b'.
Proof.
  intro H. pose proof (resolve_circle_resolution a b) as R. rewrite H in R.
  inversion R; subst; split; repeat split.
Qed.

Lemma accumulate_fields_kinematics
  (ents : list entity) (self : ForceFieldCircle) (dt : Q) :
  same_kinematics self (accumulate_fields self dt ents)
  /\ pending_velocity_change (accumulate_fields self dt ents)
     = pending_velocity_change self
  /\ pending_position_correction (accumulate_fields self dt ents)
     = pending_position_correction self.
Proof.
  unfold accumulate_fields. revert self.
  induction ents as [|e t IH]; intro self; cbn.
  - repeat split.
  - destruct e as [f|c|k]; try apply IH.
    destruct (IH (apply_force self (f self) dt)) as (K & V & P).
    split; [|split; [exact V|exact P]].
    eapply same_kinematics_trans; [|exact K]. repeat split.
Qed.

Lemma collide_frame (i j : nat) (ents ents' : list entity) :
  collide i j ents = Ok ents' -> Forall2 detection_frame ents ents'.
Proof.
  unfold collide.
  destruct (nth_error ents i) as [[f|self|k]|] eqn:Hi;
    try (intro H; injection H as <-; apply frame_refl).
  destruct (nth_error ents j) as [[f|other|k]|] eqn:Hj;
    try (intro H; injection H as <-; apply frame_refl).
  destruct (negb (j =? i)%nat && _) eqn:Hc;
    [|intro H; injection H as <-; apply frame_refl].
  apply andb_true_iff in Hc. destruct Hc as [Hne _].
  apply negb_true_iff, Nat.eqb_neq in Hne.
  rewrite resolve_collision_circle.
  destruct (resolve_circle self other) as [[a' b']|e] eqn:Hr;
    [|discriminate].
  cbn. intro H. injection H as <-.
  destruct (resolve_circle_kinematics _ _ _ _ Hr) as [Ka Kb].
  eapply frame_trans.
  - apply (frame_store ents i (ECircle self) (ECircle a') Hi Ka).
  - apply (frame_store _ j (ECircle other) (ECircle b')); [|exact Kb].
    rewrite nth_error_store_other by auto. exact Hj.
Qed.

Lemma collide_all_frame (i : nat) (js : list nat) (ents ents' : list entity) :
  collide_all i js ents = Ok ents' -> Forall2 detection_frame ents ents'.
Proof.
  revert ents. induction js as [|j js IH]; intros ents H; cbn in H.
  - injection H as <-. apply frame_refl.
  - destruct (collide i j ents) as [ents1|e] eqn:Hc; [|discriminate].
    cbn in H. eapply frame_trans; [apply (collide_frame _ _ _ _ Hc)|].
    apply IH. exact H.
Qed.

(** X9.  The detection pass records and never applies: whenever
    [calculate_physics] returns, the registry has the same entities in the
    same order, every force field and foreign entity is untouched, and
    every body has the position, velocity, mass, restitution and radius it
    had. *)
Theorem calculate_physics_frame
  (i : nat) (dt : Q) (ents ents' : list entity) :
  calculate_physics i dt ents = Ok ents' ->
  Forall2 detection_frame ents ents'.
Proof.
  unfold calculate_physics.
  destruct (nth_error ents i) as [[f|self|k]|] eqn:Hi;
    try (intro H; injection H as <-; apply frame_refl).
  intro H. apply collide_all_frame in H.
  eapply frame_trans; [|exact H].
  apply (frame_store ents i (ECircle self)); [exact Hi|].
  destruct (accumulate_fields_kinematics ents self dt) as (K & _).
  eapply same_kinematics_trans; [exact K|]. repeat split.
Qed.

Lemma calculate_physics_frame_witness :
  exists ents',
    calculate_physics 0 1 [ECircle unit_mass; ECircle incoming] = Ok ents'
    /\ Forall2 detection_frame [ECircle unit_mass; ECircle incoming] ents'.
Proof.
  eexists. split; [vm_compute; reflexivity|].
  apply (calculate_physics_frame 0 1). vm_compute. reflexivity.
Defined.

Lemma resolve_circle_total (a b : ForceFieldCircle) :
  ~ mass a == 0 -> ~ mass b == 0 -> exists r, resolve_circle a b = Ok r.
Proof.
  intros Ha Hb. pose proof (resolve_circle_resolution a b) as R.
  inversion R as [C E|D L V E|D L V M E|D L V Ma Mb J E|D L V Ma Mb J E];
    eauto.
  destruct M; contradiction.
Qed.

Lemma resolve_circle_raise_kind (a b : ForceFieldCircle) (e : exn) :
  resolve_circle a b = Raise e -> e = ZeroDivisionError.
Proof.
  intro H. pose proof (resolve_circle_resolution a b) as R. rewrite H in R.
  inversion R. reflexivity.
Qed.

Lemma nonzero_nth (ents : list entity) (k : nat) (c : ForceFieldCircle) :
  Forall nonzero_mass ents -> nth_error ents k = Some (ECircle c) ->
  ~ mass c == 0.
Proof.
  intros H Hn. apply nth_error_In in Hn.
  rewrite Forall_forall in H. apply (H _ Hn).
Qed.

Lemma collide_total (i j : nat) (ents : list entity) :
  Forall nonzero_mass ents -> exists ents', collide i j ents = Ok ents'.
Proof.
  intro Hz. unfold collide.
  destruct (nth_error ents i) as [[f|self|k]|] eqn:Hi; eauto.
  destruct (nth_error ents j) as [[f|other|k]|] eqn:Hj; eauto.
  destruct (negb (j =? i)%nat && _); eauto.
  rewrite resolve_collision_circle.
  destruct (resolve_circle_total self other) as [r Hr];
    eauto using nonzero_nth.
  rewrite Hr. cbn. eauto.
Qed.

Lemma collide_all_total (i : nat) (js : list nat) (ents : list entity) :
  Forall nonzero_mass ents -> exists ents', collide_all i js ents = Ok ents'.
Proof.
  revert ents. induction js as [|j js IH]; intros ents Hz; cbn; eauto.
  destruct (collide_total i j ents Hz) as [ents1 H1]. rewrite H1. cbn.
  apply IH. apply (frame_nonzero ents); [|exact Hz].
  apply (collide_frame _ _ _ _ H1).
Qed.

(** X10.  In a registry whose bodies all have a non-zero mass,
    [calculate_physics] raises nothing, for any body and any positions and
    velocities; the registry it returns has the same length and again only
    non-zero masses, so the next call is safe too. *)
Theorem calculate_physics_total (i : nat) (dt : Q) (ents : list entity) :
  Forall nonzero_mass ents ->
  exists ents',
    calculate_physics i dt ents = Ok ents'
    /\ length ents' = length ents
    /\ Forall nonzero_mass ents'.
Proof.
  intro Hz.
  assert (T : exists ents', calculate_physics i dt ents = Ok ents').
  { unfold calculate_physics.
    destruct (nth_error ents i) as [[f|self|k]|] eqn:Hi; eauto.
    apply collide_all_total. apply (frame_nonzero ents); [|exact Hz].
    apply (frame_store ents i (ECircle self)); [exact Hi|].
    destruct (accumulate_fields_kinematics ents self dt) as (K & _).
    eapply same_kinematics_trans; [exact K|]. repeat split. }
  destruct T as [ents' H]. exists ents'. split; [exact H|].
  assert (F : Forall2 detection_frame ents ents').
  { unfold calculate_physics in H.
    destruct (nth_error ents i) as [[f|self|k]|] eqn:Hi;
      try (injection H as <-; apply frame_refl).
    apply collide_all_frame in H. eapply frame_trans; [|exact H].
    apply (frame_store ents i (ECircle self)); [exact Hi|].
    destruct (accumulate_fields_kinematics ents self dt) as (K & _).
    eapply same_kinematics_trans; [exact K|]. repeat split. }
  split.
  - symmetry. apply (Forall2_length F).
  - apply (frame_nonzero ents); assumption.
Qed.

Lemma calculate_physics_total_witness :
  exists ents',
    calculate_physics 1 1 [ECircle unit_mass; ECircle negative_mass]
    = Ok ents'
    /\ length ents' = length [ECircle unit_mass; ECircle negative_mass]
    /\ Forall nonzero_mass ents'.
Proof.
  apply (calculate_physics_total 1 1 [ECircle unit_mass; ECircle negative_mass]).
  repeat constructor; vm_compute; discriminate.
Defined.

Lemma kinematics_pair (a a' b b' : ForceFieldCircle) :
  same_kinematics a a' -> same_kinematics b b' ->
  distance a' b' = distance a b
  /\ radius a' + radius b' = radius a + radius b
  /\ velocity_along_normal a' b' = velocity_along_normal a b
  /\ mass a' = mass a /\ mass b' = mass b.
Proof.
  intros (Pa & Va & Ma & _ & Ra) (Pb & Vb & Mb & _ & Rb).
  unfold distance, velocity_along_normal, direction.
  rewrite Pa, Pb, Va, Vb, Ma, Mb, Ra, Rb. repeat split.
Qed.

Lemma fatal_pair_kinematics (a a' b b' : ForceFieldCircle) :
  same_kinematics a a' -> same_kinematics b b' ->
  fatal_pair a b -> fatal_pair a' b'.
Proof.
  intros Ka Kb. unfold fatal_pair, exact_separation.
  destruct (kinematics_pair a a' b b' Ka Kb) as (D & R & V & Ma & Mb).
  destruct Ka as (Pa & _). destruct Kb as (Pb & _).
  rewrite D, R, V, Ma, Mb, Pa, Pb. auto.
Qed.

Lemma collide_fatal (i j : nat) (ents : list entity)
  (a b : ForceFieldCircle) :
  nth_error ents i = Some (ECircle a) ->
  nth_error ents j = Some (ECircle b) ->
  i <> j -> fatal_pair a b ->
  collide i j ents = Raise ZeroDivisionError.
Proof.
  intros Hi Hj Hne (_ & D & L & V & M). unfold collide. rewrite Hi, Hj.
  assert (Hji : (j =? i)%nat = false) by (apply Nat.eqb_neq; auto).
  rewrite Hji. cbn [negb andb].
  unfold intersects, get_collision_shape. cbn [shape_radius].
  fold (distance a b). rewrite (proj2 (Qltb_true _ _) L).
  rewrite resolve_collision_circle, resolve_circle_zero_mass; auto.
  apply distance_positive. exact D.
Qed.

Lemma collide_raise_kind (i j : nat) (ents : list entity) (e : exn) :
  collide i j ents = Raise e -> e = ZeroDivisionError.
Proof.
  unfold collide.
  destruct (nth_error ents i) as [[f|self|k]|]; try discriminate.
  destruct (nth_error ents j) as [[f|other|k]|]; try discriminate.
  destruct (negb (j =? i)%nat && _); try discriminate.
  rewrite resolve_collision_circle.
  destruct (resolve_circle self other) as [r|e'] eqn:Hr; [discriminate|].
  intro H. injection H as <-. apply (resolve_circle_raise_kind _ _ _ Hr).
Qed.

Lemma collide_all_fatal (i j : nat) (js : list nat) :
  forall (ents : list entity) (a b : ForceFieldCircle),
  In j js ->
  nth_error ents i = Some (ECircle a) ->
  nth_error ents j = Some (ECircle b) ->
  i <> j -> fatal_pair a b ->
  collide_all i js ents = Raise ZeroDivisionError.
Proof.
  induction js as [|j0 js IH]; intros ents a b Hin Hi Hj Hne Hf;
    [contradiction|].
  cbn. destruct (collide i j0 ents) as [ents1|e] eqn:Hc.
  - cbn. destruct Hin as [->|Hin].
    + rewrite (collide_fatal i j ents a b Hi Hj Hne Hf) in Hc. discriminate.
    + pose proof (collide_frame _ _ _ _ Hc) as F.
      destruct (frame_nth _ _ _ _ F Hi) as ([f|a1|k] & Hi1 & Ka);
        try contradiction.
      destruct (frame_nth _ _ _ _ F Hj) as ([f|b1|k] & Hj1 & Kb);
        try contradiction.
      apply (IH ents1 a1 b1); auto.
      apply (fatal_pair_kinematics a a1 b b1); assumption.
  - cbn. rewrite (collide_raise_kind _ _ _ _ Hc). reflexivity.
Qed.

(** X11.  A registry that holds, anywhere, a body with an overlapping and
    approaching neighbour, one of the two having mass zero and their
    distance being exact, makes the body's [calculate_physics] raise
    [ZeroDivisionError], whatever else is registered. *)
Theorem calculate_physics_fatal
  (i j : nat) (dt : Q) (ents : list entity) (a b : ForceFieldCircle) :
  nth_error ents i = Some (ECircle a) ->
  nth_error ents j = Some (ECircle b) ->
  i <> j -> fatal_pair a b ->
  calculate_physics i dt ents = Raise ZeroDivisionError.
Proof.
  intros Hi Hj Hne Hf. unfold calculate_physics. rewrite Hi.
  set (self := set_pending_position_correction _ _).
  assert (K : same_kinematics a self).
  { destruct (accumulate_fields_kinematics ents a dt) as (K & _).
    eapply same_kinematics_trans; [exact K|]. repeat split. }
  apply (collide_all_fatal i j _ _ self b).
  - apply in_seq. split; [apply Nat.le_0_l|]. cbn.
    apply nth_error_Some. rewrite Hj. discriminate.
  - apply (nth_error_store_same _ _ _ _ Hi).
  - rewrite nth_error_store_other by exact Hne. exact Hj.
  - exact Hne.
  - apply (fatal_pair_kinematics a self b b K (same_kinematics_refl b) Hf).
Qed.

Lemma calculate_physics_fatal_witness :
  calculate_physics 2 1
    [ECircle open_a; constant_field; ECircle incoming; ECircle massless]
  = Raise ZeroDivisionError.
Proof.
  apply (calculate_physics_fatal 2 3 1 _ incoming massless);
    try reflexivity; [discriminate|].
  repeat split; try (vm_compute; reflexivity).
  right. vm_compute. reflexivity.
Defined.

Lemma store_same (l : list entity) (i : nat) (e : entity) :
  nth_error l i = Some e -> store l i e = l.
Proof.
  revert i. induction l as [|h t IH]; intros [|i] H; cbn in *;
    try discriminate.
  - injection H as ->. reflexivity.
  - rewrite IH by exact H. reflexivity.
Qed.

Lemma collide_clear (i j : nat) (ents : list entity)
  (self : ForceFieldCircle) :
  nth_error ents i = Some (ECircle self) ->
  (forall k c, k <> i -> nth_error ents k = Some (ECircle c) ->
               radius self + radius c <= distance self c) ->
  collide i j ents = Ok ents.
Proof.
  intros Hi Hfar. unfold collide. rewrite Hi.
  destruct (nth_error ents j) as [[f|other|k]|] eqn:Hj; try reflexivity.
  destruct (Nat.eqb_spec j i) as [->|Hne]; [reflexivity|].
  cbn [negb andb]. destruct (intersects _ _ _ _); [|reflexivity].
  rewrite resolve_collision_circle.
  rewrite resolve_circle_skip by (left; apply (Hfar j other Hne Hj)).
  cbn. rewrite (store_same ents i _ Hi), (store_same ents j _ Hj).
  reflexivity.
Qed.

Lemma collide_all_clear (i : nat) (js : list nat) (ents : list entity)
  (self : ForceFieldCircle) :
  nth_error ents i = Some (ECircle self) ->
  (forall k c, k <> i -> nth_error ents k = Some (ECircle c) ->
               radius self + radius c <= distance self c) ->
  collide_all i js ents = Ok ents.
Proof.
  intros Hi Hfar. induction js as [|j js IH]; cbn; [reflexivity|].
  rewrite (collide_clear i j ents self Hi Hfar). exact IH.
Qed.

(** X12.  A body with no overlapping neighbour leaves [calculate_physics]
    with both pending fields at zero, whatever they held before, and with
    the forces of the fields accumulated; no other entity of the registry
    changes. *)
Theorem calculate_physics_clear
  (i : nat) (dt : Q) (ents : list entity) (self : ForceFieldCircle) :
  nth_error ents i = Some (ECircle self) ->
  (forall k c, k <> i -> nth_error ents k = Some (ECircle c) ->
               radius self + radius c <= distance self c) ->
  calculate_physics i dt ents
  = Ok (store ents i
          (ECircle (reset_pending (accumulate_fields self dt ents)))).
Proof.
  intros Hi Hfar. unfold calculate_physics. rewrite Hi.
  apply (collide_all_clear i _ _
           (reset_pending (accumulate_fields self dt ents))).
  - apply (nth_error_store_same _ _ _ _ Hi).
  - intros k c Hk Hc. rewrite nth_error_store_other in Hc by auto.
    destruct (accumulate_fields_kinematics ents self dt)
      as ((P & _ & _ & _ & R) & _).
    unfold distance. cbn [radius position reset_pending
      set_pending_position_correction set_pending_velocity_change].
    rewrite P, R. apply (Hfar k c Hk Hc).
Qed.

Lemma calculate_physics_clear_witness :
  calculate_physics 1 1 [ECircle wall_a; ECircle stale; constant_field]
  = Ok (store [ECircle wall_a; ECircle stale; constant_field] 1
          (ECircle (reset_pending
             (accumulate_fields stale 1
                [ECircle wall_a; ECircle stale; constant_field])))).
Proof.
  apply (calculate_physics_clear 1 1 _ stale); [reflexivity|].
  intros [|[|[|k]]] c Hk Hc; cbn in Hc; try discriminate.
  - injection Hc as <-. vm_compute. discriminate.
  - exfalso. apply Hk. reflexivity.
  - destruct k; discriminate.
Defined.

Lemma set_net_force_accumulated_eta (c : ForceFieldCircle) :
  set_net_force_accumulated c (net_force_accumulated c) = c.
Proof. destruct c. reflexivity. Qed.

Lemma accumulate_fields_from (ents : list entity)
  (self : ForceFieldCircle) (v : Vector2) (dt : Q) :
  (forall f, In (EForceField f) ents -> ignores_accumulator f) ->
  accumulate_fields (set_net_force_accumulated self v) dt ents
  = set_net_force_accumulated self (fold_left vadd (forces_on self ents) v).
Proof.
  unfold accumulate_fields. revert v.
  induction ents as [|e t IH]; intros v Hb; cbn; [reflexivity|].
  destruct e as [f|c|k]; cbn.
  - assert (Hf : ignores_accumulator f) by (apply Hb; left; reflexivity).
    unfold apply_force. cbn [net_force_accumulated set_net_force_accumulated
      position velocity mass restitution radius pending_velocity_change
      pending_position_correction].
    rewrite (Hf self v).
    apply (IH (vadd v (f self))). intros g Hg. apply Hb. right. exact Hg.
  - apply IH. intros g Hg. apply Hb. right. exact Hg.
  - apply IH. intros g Hg. apply Hb. right. exact Hg.
Qed.

(** X13.  When no registered field reads the force accumulated so far,
    the first loop of [calculate_physics] adds to [net_force_accumulated]
    the forces that the fields apply to the body as it was before the
    loop, in registry order, and changes nothing else. *)
Theorem accumulate_fields_sum
  (ents : list entity) (self : ForceFieldCircle) (dt : Q) :
  (forall f, In (EForceField f) ents -> ignores_accumulator f) ->
  accumulate_fields self dt ents
  = set_net_force_accumulated self
      (fold_left vadd (forces_on self ents) (net_force_accumulated self)).
Proof.
  intro Hb.
  rewrite <- (set_net_force_accumulated_eta self) at 1.
  apply accumulate_fields_from. exact Hb.
Qed.

Lemma accumulate_fields_sum_witness :
  accumulate_fields pushed 1 [constant_field; ECircle open_a; spring_field]
  = set_net_force_accumulated pushed
      (fold_left vadd
         (forces_on pushed [constant_field; ECircle open_a; spring_field])
         (net_force_accumulated pushed)).
Proof.
  apply (accumulate_fields_sum _ pushed 1).
  intros f [H|[H|[H|[]]]]; try discriminate;
    injection H as <-; intros c v; reflexivity.
Defined.

(** ** Symmetry of the resolution *)

Lemma distance_sym (a b : ForceFieldCircle) : distance b a = distance a b.
Proof.
  unfold distance, distance_to, vlength.
  apply Qsqrt_compat, length_squared_vsub_sym.
Qed.

Lemma overlap_sym (a b : ForceFieldCircle) : overlap b a == overlap a b.
Proof. unfold overlap, combined_radii. rewrite distance_sym. ring. Qed.

Lemma direction_opp (a b : ForceFieldCircle) :
  0 < distance a b ->
  x (direction b a) == - x (direction a b)
  /\ y (direction b a) == - y (direction a b).
Proof.
  intro Hd. unfold direction. cbv zeta.
  rewrite !vlength_vsub_distance. fold (distance a b) (distance b a).
  rewrite distance_sym. cbn [x y vsub]. split; field; lra.
Qed.

Lemma velocity_along_normal_sym (a b : ForceFieldCircle) :
  0 < distance a b ->
  velocity_along_normal b a == velocity_along_normal a b.
Proof.
  intro Hd. destruct (direction_opp a b Hd) as [Dx Dy].
  unfold velocity_along_normal, dot. cbn -[direction].
  rewrite Dx, Dy. ring.
Qed.

Lemma pymin_sym (p q : Q) : pymin p q == pymin q p.
Proof.
  unfold pymin. case_Qltb q p; case_Qltb p q; try reflexivity; lra.
Qed.

Lemma j_divisor_sym (a b : ForceFieldCircle) : j_divisor b a == j_divisor a b.
Proof. unfold j_divisor. ring. Qed.

Lemma impulse_scalar_sym (a b : ForceFieldCircle) :
  0 < distance a b -> impulse_scalar b a == impulse_scalar a b.
Proof.
  intro Hd. unfold impulse_scalar.
  rewrite (velocity_along_normal_sym a b Hd), (j_divisor_sym a b),
    (pymin_sym (restitution b) (restitution a)).
  reflexivity.
Qed.

(** X14.  The resolution of a pair does not depend on which of the two
    bodies it is called on: if [resolve_collision] on A against B returns,
    so does the call on B against A, and it records the same four pending
    fields. *)
Theorem resolve_collision_symmetric (a b a1 b1 : ForceFieldCircle) :
  resolve_collision a (ECircle b) = Ok (a1, ECircle b1) ->
  exists b2 a2,
    resolve_collision b (ECircle a) = Ok (b2, ECircle a2)
    /\ veq (pending_position_correction a2) (pending_position_correction a1)
    /\ veq (pending_position_correction b2) (pending_position_correction b1)
    /\ veq (pending_velocity_change a2) (pending_velocity_change a1)
    /\ veq (pending_velocity_change b2) (pending_velocity_change b1).
Proof.
  intro H. apply resolve_collision_inv in H.
  pose proof (resolve_circle_resolution a b) as R.
  assert (Hr : combined_radii b a == combined_radii a b)
    by (unfold combined_radii; ring).
  inversion R as [C E|D L V E|D L V M E|D L V Ma Mb J E|D L V Ma Mb J E];
    rewrite <- E in H; try discriminate; injection H as <- <-.
  - exists b, a. split.
    + apply resolve_collision_ok, resolve_circle_skip.
      rewrite distance_sym, Hr. exact C.
    + repeat split; reflexivity.
  - pose proof (direction_opp a b D) as [Dx Dy].
    pose proof (overlap_sym a b) as Ho.
    exists (corrected_self b a), (corrected_other b a). split.
    + apply resolve_collision_ok, resolve_circle_separating.
      * rewrite distance_sym, Hr. exact L.
      * rewrite distance_sym. apply distance_positive. exact D.
      * rewrite velocity_along_normal_sym; assumption.
    + repeat split; cbn -[direction overlap]; try reflexivity;
        rewrite ?Dx, ?Dy, Ho; ring.
  - pose proof (direction_opp a b D) as [Dx Dy].
    pose proof (overlap_sym a b) as Ho.
    exists (corrected_self b a), (corrected_other b a). split.
    + apply resolve_collision_ok, resolve_circle_zero_divisor; auto.
      * rewrite distance_sym, Hr. exact L.
      * rewrite distance_sym. apply distance_positive. exact D.
      * rewrite velocity_along_normal_sym; assumption.
      * rewrite j_divisor_sym. exact J.
    + repeat split; cbn -[direction overlap]; try reflexivity;
        rewrite ?Dx, ?Dy, Ho; ring.
  - pose proof (direction_opp a b D) as [Dx Dy].
    pose proof (overlap_sym a b) as Ho.
    pose proof (impulse_scalar_sym a b D) as Hs.
    exists (impulsed_self b a), (impulsed_other b a). split.
    + apply resolve_collision_ok, resolve_circle_impulse; auto.
      * rewrite distance_sym, Hr. exact L.
      * rewrite distance_sym. apply distance_positive. exact D.
      * rewrite velocity_along_normal_sym; assumption.
      * rewrite j_divisor_sym. exact J.
    + repeat split; cbn -[direction overlap impulse_scalar];
        rewrite ?Dx, ?Dy, ?Ho, ?Hs; unfold Qdiv; ring.
Qed.

Lemma resolve_collision_symmetric_witness :
  exists b2 a2,
    resolve_collision head_on_b (ECircle head_on_a) = Ok (b2, ECircle a2)
    /\ veq (pending_position_correction a2)
           (pending_position_correction (impulsed_self head_on_a head_on_b))
    /\ veq (pending_position_correction b2)
           (pending_position_correction (impulsed_other head_on_a head_on_b))
    /\ veq (pending_velocity_change a2)
           (pending_velocity_change (impulsed_self head_on_a head_on_b))
    /\ veq (pending_velocity_change b2)
           (pending_velocity_change (impulsed_other head_on_a head_on_b)).
Proof.
  apply (resolve_collision_symmetric head_on_a head_on_b).
  vm_compute. reflexivity.
Defined.

(** ** Free motion *)

Lemma integrate_free (self : ForceFieldCircle) (dt : Q) :
  veq (net_force_accumulated self) vzero ->
  veq (pending_velocity_change self) vzero ->
  veq (pending_position_correction self) vzero ->
  veq (velocity (IntegratorSpec.integrate dt self)) (velocity self)
  /\ veq (position (IntegratorSpec.integrate dt self))
         (vadd (position self) (vscale (velocity self) dt)).
Proof.
  intros [Fx Fy] [Vx Vy] [Px Py]. cbn [x y vzero] in *.
  unfold IntegratorSpec.integrate, IntegratorSpec.step_a.
  destruct (Qltb 0 (mass self)); cbn; (split; split);
    unfold vadd, vscale; cbn [x y];
    rewrite ?Fx, ?Fy, ?Vx, ?Vy, ?Px, ?Py; unfold Qdiv; ring.
Qed.

(** X15.  A body with no accumulated force and no pending correction that
    stays inside the rectangle moves uniformly: [update] returns it with
    the same velocity and with [velocity * dt] added to its position,
    whatever its mass. *)
Theorem update_uniform_motion
  (self : ForceFieldCircle) (dt : Q) (screen_rect : Rect) :
  veq (net_force_accumulated self) vzero ->
  veq (pending_velocity_change self) vzero ->
  veq (pending_position_correction self) vzero ->
  rect_left screen_rect
    <= x (position self) + x (velocity self) * dt - radius self ->
  x (position self) + x (velocity self) * dt + radius self
    <= rect_right screen_rect ->
  rect_top screen_rect
    <= y (position self) + y (velocity self) * dt - radius self ->
  y (position self) + y (velocity self) * dt + radius self
    <= rect_bottom screen_rect ->
  exists b',
    update self dt screen_rect = Ok b'
    /\ veq (velocity b') (velocity self)
    /\ veq (position b')
           (vadd (position self) (vscale (velocity self) dt)).
Proof.
  intros F V P L R T B.
  destruct (integrate_free self dt F V P) as [Hv [Hx Hy]].
  destruct (integrate_static dt self) as (_ & _ & Hr & _).
  cbn [x y vadd vscale] in Hx, Hy.
  exists (IntegratorSpec.integrate dt self). split.
  - rewrite update_total. f_equal. apply boundary_inside;
      rewrite Hr, ?Hx, ?Hy; assumption.
  - split; [exact Hv|]. split; cbn [x y vadd vscale]; assumption.
Qed.

Lemma update_uniform_motion_witness :
  exists b',
    update drifting 1 arena = Ok b'
    /\ veq (velocity b') (velocity drifting)
    /\ veq (position b')
           (vadd (position drifting) (vscale (velocity drifting) 1)).
Proof.
  apply (update_uniform_motion drifting 1 arena);
    try (split; vm_compute; reflexivity); vm_compute; discriminate.
Defined.

